(** * strokes.py: practice-sheet curriculum and page layout

    A shallow embedding of [load_strokes_db], [load_dictionary],
    [get_image], [gen_images] and [gen_svg] of [strokes.py], and the
    properties of the curriculum generator, the cell cache and the page
    layout that follow from the code.

    Conventions of the embedding:
    - a Python [str] is the list of its code points ([pystr]); a target
      character is a [str] of length one when it comes from iterating a
      [str], which is what both callers of [gen_svg] pass;
    - a Python [int] is a [Z]; [//] and [%] are [Z.div] and [Z.modulo]
      (both round towards minus infinity, as Python does) and raise
      [ZeroDivisionError] on a zero divisor;
    - a [dict] is a [gmap]; [d[k]] on a missing key raises [KeyError];
    - the mutable list [images], the files written with [open(.., 'w')],
      the output file [fi] and the state of [random] form the [world]
      that every effectful function threads; an exception keeps the world
      reached when it was raised;
    - the generator [gen_images] is the state machine of its loop heads
      ([frame]): [gen_images .. fr] resumes it at [fr] and runs it to its
      next [yield]. *)

From Stdlib Require Import ZArith List Lia String Ascii DecimalZ.
From stdpp Require Import base option list gmap.

Local Open Scope Z_scope.

(** ** Python strings *)

Abbreviation codepoint := N.
Abbreviation pystr := (list codepoint).

(** Decoding of the UTF-8 bytes of a literal into code points, so that
    Python literals can be written as literals. *)
Fixpoint utf8_decode (bs : list N) : pystr :=
  match bs with
  | [] => []
  | b0 :: r0 =>
    if (b0 <? 128)%N then b0 :: utf8_decode r0
    else match r0 with
    | [] => []
    | b1 :: r1 =>
      if (b0 <? 224)%N then ((b0 - 192) * 64 + (b1 - 128))%N :: utf8_decode r1
      else match r1 with
      | [] => []
      | b2 :: r2 =>
        if (b0 <? 240)%N
        then (((b0 - 224) * 64 + (b1 - 128)) * 64 + (b2 - 128))%N :: utf8_decode r2
        else match r2 with
        | [] => []
        | b3 :: r3 =>
          ((((b0 - 240) * 64 + (b1 - 128)) * 64 + (b2 - 128)) * 64 + (b3 - 128))%N
            :: utf8_decode r3
        end
      end
    end
  end.

Definition py (s : string) : pystr :=
  utf8_decode (map N_of_ascii (list_ascii_of_string s)).

(** [', '.join(items)] *)
Fixpoint join (sep : pystr) (items : list pystr) : pystr :=
  match items with
  | [] => []
  | [x] => x
  | x :: rest => x ++ sep ++ join sep rest
  end.

(** ['%d' % z]: the decimal digits, with a minus sign for negatives. *)
Fixpoint uint_codes (u : Decimal.uint) : pystr :=
  match u with
  | Decimal.Nil => []
  | Decimal.D0 u => 48%N :: uint_codes u
  | Decimal.D1 u => 49%N :: uint_codes u
  | Decimal.D2 u => 50%N :: uint_codes u
  | Decimal.D3 u => 51%N :: uint_codes u
  | Decimal.D4 u => 52%N :: uint_codes u
  | Decimal.D5 u => 53%N :: uint_codes u
  | Decimal.D6 u => 54%N :: uint_codes u
  | Decimal.D7 u => 55%N :: uint_codes u
  | Decimal.D8 u => 56%N :: uint_codes u
  | Decimal.D9 u => 57%N :: uint_codes u
  end.

Definition fmt_d (z : Z) : pystr :=
  match Z.to_int z with
  | Decimal.Pos u => uint_codes u
  | Decimal.Neg u => 45%N :: uint_codes u
  end.

(** ** Exceptions and the world *)

Inductive exn :=
| KeyError
| IndexError
| ZeroDivisionError
| JSONDecodeError.

(** What [get_image] writes into a cell file: [HEADER], the [<text>]
    element with [add_text], [HEADER2], one [PATH_TPL] per stroke shown
    (path data and stroke width), [FOOTER].  The fixed markup is left
    out; the template arguments are kept. *)
Record cell_file := CellFile {
  cf_text : pystr;
  cf_paths : list (pystr * Z)
}.

(** What [gen_svg] writes to [fi], one item per [fi.write]. *)
Inductive chunk :=
| HEADER_SINGLE
| TEXT (header : pystr)
| IMAGE_TPL (x y width height : Z) (href : pystr)
| FOOTER_SINGLE.

Record world := World {
  images : list pystr;               (* the list [images] of the run *)
  written : list (pystr * cell_file);(* files opened for writing, in order *)
  draws : nat;                       (* numbers taken from [random] so far *)
  fi : list chunk                    (* what was written to [fi] *)
}.

Inductive outcome (A : Type) :=
| Ret (a : A) (w : world)
| Raise (e : exn) (w : world).
Arguments Ret {A} a w.
Arguments Raise {A} e w.

Definition M (A : Type) : Type := world -> outcome A.

#[global] Instance M_ret : MRet M := fun A a w => Ret a w.
#[global] Instance M_bind : MBind M := fun A B f m w =>
  match m w with
  | Ret a w' => f a w'
  | Raise e w' => Raise e w'
  end.

Definition raise {A} (e : exn) : M A := fun w => Raise e w.

(** [d[k]] *)
Definition getitem {V} (d : gmap pystr V) (k : pystr) : M V :=
  match d !! k with
  | Some v => mret v
  | None => raise KeyError
  end.

(** [a // b] and [a % b] *)
Definition floordiv (a b : Z) : M Z :=
  if decide (b = 0) then raise ZeroDivisionError else mret (a / b).
Definition pymod (a b : Z) : M Z :=
  if decide (b = 0) then raise ZeroDivisionError else mret (a mod b).

(** ** The stores *)

(** A line of [graphics.txt] or [dictionary.txt] as [json.loads] and the
    field accesses see it: the empty string, a line on which they raise,
    or the fields read from the decoded object. *)
Inductive json_line (A : Type) :=
| EmptyLine
| BadLine (e : exn)
| Decoded (a : A).
Arguments EmptyLine {A}.
Arguments BadLine {A} e.
Arguments Decoded {A} a.

Record graphics_entry := GraphicsEntry {
  g_character : pystr;
  g_strokes : list pystr
}.

Record dictionary_entry := DictionaryEntry {
  d_character : pystr;
  d_pinyin : list pystr
}.

Definition PLACEHOLDER : pystr := py "X".

(** The dict comprehension of [load_strokes_db]: lines in order, the
    empty ones skipped, a later entry replacing an earlier one. *)
Fixpoint strokes_comprehension (ls : list (json_line graphics_entry))
    (ret : gmap pystr (list pystr)) : exn + gmap pystr (list pystr) :=
  match ls with
  | [] => inr ret
  | EmptyLine :: ls' => strokes_comprehension ls' ret
  | BadLine e :: _ => inl e
  | Decoded x :: ls' =>
      strokes_comprehension ls' (<[g_character x := g_strokes x]> ret)
  end.

Definition load_strokes_db (graphics_txt : list (json_line graphics_entry))
    : exn + gmap pystr (list pystr) :=
  match strokes_comprehension graphics_txt ∅ with
  | inl e => inl e
  | inr ret => inr (<[PLACEHOLDER := []]> ret)
  end.

(** The loop of [load_dictionary]; [json.loads] raises on an empty
    line. *)
Fixpoint dictionary_loop (ls : list (json_line dictionary_entry))
    (d : gmap pystr pystr) : exn + gmap pystr pystr :=
  match ls with
  | [] => inr d
  | EmptyLine :: _ => inl JSONDecodeError
  | BadLine e :: _ => inl e
  | Decoded j :: ls' =>
      match d_pinyin j with
      | [] => dictionary_loop ls' d
      | p0 :: _ => dictionary_loop ls' (<[d_character j := p0]> d)
      end
  end.

Definition load_dictionary (dictionary_txt : list (json_line dictionary_entry))
    : exn + gmap pystr pystr :=
  match dictionary_loop dictionary_txt ∅ with
  | inl e => inl e
  | inr d => inr (<[PLACEHOLDER := []]> d)
  end.

(** ** The cell cache: [get_image] *)

(** The [PATH_TPL] lines of a cell: the body of the [enumerate] loop,
    [n] being the index of the head of [strokes]. *)
Fixpoint render_paths (n : Z) (strokes : list pystr)
    (img_num skip_strokes stop_at : Z) : list (pystr * Z) :=
  match strokes with
  | [] => []
  | stroke :: rest =>
      if decide (n < skip_strokes ∨ n >= stop_at)
      then render_paths (n + 1) rest img_num skip_strokes stop_at
      else
        let line_size := if decide (n - 1 < img_num) then 20 else 10 in
        (stroke, line_size)
          :: render_paths (n + 1) rest img_num skip_strokes stop_at
  end.

(** [C + '%d-%d-%d.svg' % (img_num, skip_strokes, stop_at)] *)
Definition cell_fname (C : pystr) (img_num skip_strokes stop_at : Z) : pystr :=
  C ++ (fmt_d img_num ++ py "-" ++ fmt_d skip_strokes ++ py "-"
          ++ fmt_d stop_at ++ py ".svg").

(** [get_image(C, img_num, images, strokes, skip_strokes, stop_at,
    add_text)], [images] being the list of the world: a name that is in
    the list is returned as it is; otherwise the file is written, its
    name is appended to the list and returned. *)
Definition get_image (C : pystr) (img_num : Z) (strokes : list pystr)
    (skip_strokes stop_at : Z) (add_text : pystr) : M pystr :=
  fun w =>
    let fname := cell_fname C img_num skip_strokes stop_at in
    if decide (fname ∈ images w) then Ret fname w
    else
      let f := CellFile add_text
                 (render_paths 0 strokes img_num skip_strokes stop_at) in
      Ret fname
        (World (images w ++ [fname]) (written w ++ [(fname, f)])
               (draws w) (fi w)).

(** ** The curriculum: [gen_images] *)

(** The arguments of one call of [get_image] by the generator. *)
Record request := Request {
  rq_C : pystr;
  rq_img_num : Z;
  rq_strokes : list pystr;
  rq_skip_strokes : Z;
  rq_stop_at : Z;
  rq_add_text : pystr
}.

(** A suspended generator: the loop head at which it continues when it
    is resumed, with the values of the loop variables there.  [rest] is
    what the iterator of [for C in chars] has left, [i] the stroke index,
    [k] the number of repetitions done.  [AtWhile] is also the generator
    that has not started; the generator is never suspended at [AtChars],
    it passes there on its way to the next [yield]. *)
Inductive frame :=
| AtWhile
| AtChars (rest : list pystr)
| AtTrace (rest : list pystr) (C : pystr) (strokes : list pystr) (i k : nat)
| AtRecall (rest : list pystr) (C : pystr) (strokes : list pystr) (i k : nat)
| AtReview (i : nat).

(** [fi.write(..)], [images = []] and [return images] in [gen_svg]. *)
Definition fi_write (c : chunk) : M unit := fun w =>
  Ret tt (World (images w) (written w) (draws w) (fi w ++ [c])).

Definition new_images : M unit := fun w =>
  Ret tt (World [] (written w) (draws w) (fi w)).

Definition the_images : M (list pystr) := fun w => Ret (images w) w.

(** A result without effects, as a computation. *)
Definition lift {A} (r : exn + A) : M A :=
  match r with
  | inl e => raise e
  | inr a => mret a
  end.

(** [range(n)] *)
Definition py_range (n : Z) : list Z := map Z.of_nat (seq 0 (Z.to_nat n)).

Section Run.

(** The numbers the random source of the run gives, in order; a draw
    below [n] is the next number modulo [n]. *)
Variable rnd : nat -> nat.

(** [random.choice(seq)] *)
Definition random_choice (seq : list pystr) : M pystr := fun w =>
  match seq !! (rnd (draws w) mod length seq)%nat with
  | Some c => Ret c (World (images w) (written w) (S (draws w)) (fi w))
  | None => Raise IndexError w
  end.

Section Generator.

Variable chars : list pystr.
Variable strokes_db : gmap pystr (list pystr).
Variable P : gmap pystr pystr.

(** [get_image(C, i, images, strokes, 0, i+1, P[C])] *)
Definition trace_request (C : pystr) (strokes : list pystr) (i : nat)
    : M request :=
  add_text ← getitem P C;
  mret (Request C (Z.of_nat i) strokes 0 (Z.of_nat i + 1) add_text).

(** [get_image(C, 0, images, strokes, i + 1, 99, P[C])] *)
Definition recall_request (C : pystr) (strokes : list pystr) (i : nat)
    : M request :=
  add_text ← getitem P C;
  mret (Request C 0 strokes (Z.of_nat i + 1) 99 add_text).

(** [C = random.choice(chars)] and [get_image(C, 0, images, [], 99, 99, P[C])] *)
Definition review_request : M request :=
  C ← random_choice chars;
  add_text ← getitem P C;
  mret (Request C 0 [] 99 99 add_text).

(** The three [yield]s: the request, and the loop head at which the
    generator goes on after it. *)
Definition yield_trace (rest : list pystr) (C : pystr) (strokes : list pystr)
    (i k : nat) : M (request * frame) :=
  r ← trace_request C strokes i; mret (r, AtTrace rest C strokes i (S k)).

Definition yield_recall (rest : list pystr) (C : pystr) (strokes : list pystr)
    (i k : nat) : M (request * frame) :=
  r ← recall_request C strokes i; mret (r, AtRecall rest C strokes i (S k)).

Definition yield_review (i : nat) : M (request * frame) :=
  r ← review_request; mret (r, AtReview (S i)).

(** The head of [for C in chars] with [rest] left: a character without
    strokes is passed over, and when nothing is left the first of the ten
    reviews follows. *)
Fixpoint for_chars (rest : list pystr) : M (request * frame) :=
  match rest with
  | [] => yield_review 0
  | C :: rest' =>
      strokes ← getitem strokes_db C;
      if decide (0 < length strokes)%nat
      then yield_trace rest' C strokes 0 0
      else for_chars rest'
  end.

(** Run the generator from a loop head to its next [yield]. *)
Definition advance (fr : frame) : M (request * frame) :=
  match fr with
  | AtWhile => for_chars chars
  | AtChars rest => for_chars rest
  | AtTrace rest C strokes i k =>
      if decide (k < 3)%nat then yield_trace rest C strokes i k
      else yield_recall rest C strokes i 0
  | AtRecall rest C strokes i k =>
      if decide (k < 3)%nat then yield_recall rest C strokes i k
      else if decide (S i < length strokes)%nat
      then yield_trace rest C strokes (S i) 0
      else for_chars rest
  | AtReview i =>
      if decide (i < 10)%nat then yield_review i else for_chars chars
  end.

(** The call of [get_image] for a request. *)
Definition call_get_image (r : request) : M pystr :=
  get_image (rq_C r) (rq_img_num r) (rq_strokes r)
            (rq_skip_strokes r) (rq_stop_at r) (rq_add_text r).

(** The generator [gen_images(chars, strokes_db, images, P)] resumed at
    the frame [fr], that is [next(gen_images_iter)]: it runs to its next
    [yield], calls [get_image] with the arguments found there and gives
    the file name and the frame it is suspended in. *)
Definition gen_images (fr : frame) : M (pystr * frame) :=
  '(r, fr') ← advance fr;
  fname ← call_get_image r;
  mret (fname, fr').

(** The requests behind the next [n] items of the generator, and the
    frame it is left in. *)
Fixpoint requests (n : nat) (fr : frame) : M (list request * frame) :=
  match n with
  | O => mret ([], fr)
  | S n' =>
      '(r, fr') ← advance fr;
      '(rs, fr'') ← requests n' fr';
      mret (r :: rs, fr'')
  end.

(** [n] times [next]. *)
Fixpoint pull (n : nat) (fr : frame) : M (list pystr * frame) :=
  match n with
  | O => mret ([], fr)
  | S n' =>
      '(fname, fr') ← gen_images fr;
      '(fnames, fr'') ← pull n' fr';
      mret (fname :: fnames, fr'')
  end.

(** The body of [for i in range(num_per_row * (num_rows - 1))]. *)
Fixpoint gen_svg_loop (num_per_row size : Z) (range : list Z) (fr : frame)
    : M unit :=
  match range with
  | [] => mret tt
  | i :: range' =>
      '(fname, fr') ← gen_images fr;
      m ← pymod i num_per_row;
      let x := m * size in
      q ← floordiv i num_per_row;
      let y := (q + 1) * size in
      _ ← fi_write (IMAGE_TPL x y size size fname);
      gen_svg_loop num_per_row size range' fr'
  end.

(** The items of [', '.join('%s (%s)' % (c, P[c]) for c in chars)]. *)
Fixpoint header_items (cs : list pystr) : M (list pystr) :=
  match cs with
  | [] => mret []
  | c :: cs' =>
      p ← getitem P c;
      items ← header_items cs';
      mret ((c ++ py " (" ++ p ++ py ")") :: items)
  end.

(** [', '.join('%s (%s)' % (c, P[c]) for c in chars)] *)
Definition header_text (cs : list pystr) : M pystr :=
  items ← header_items cs;
  mret (join (py ", ") items).

End Generator.

Definition PAGE_SIZE : Z * Z := (200, 300).

(** [gen_svg(C, strokes_db, size, fi)]; [dictionary_txt] is the file that
    [load_dictionary()] reads. *)
Definition gen_svg (dictionary_txt : list (json_line dictionary_entry))
    (C : list pystr) (strokes_db : gmap pystr (list pystr)) (size : Z)
    : M (list pystr) :=
  P ← lift (load_dictionary dictionary_txt);
  num_per_row ← floordiv (fst PAGE_SIZE) size;
  num_rows ← floordiv (snd PAGE_SIZE) size;
  _ ← fi_write HEADER_SINGLE;
  let chars := C in
  header ← header_text P chars;
  _ ← fi_write (TEXT header);
  _ ← new_images;
  _ ← gen_svg_loop chars strokes_db P num_per_row size
        (py_range (num_per_row * (num_rows - 1))) AtWhile;
  _ ← fi_write FOOTER_SINGLE;
  the_images.

End Run.


(** ** The schedule of one pass, as the curriculum is described

    Three tracing requests and three recall requests per stroke, the
    strokes in order, the characters in order, then ten reviews. *)

Section Schedule.

Variable rnd : nat -> nat.
Variable chars : list pystr.
Variable strokes_db : gmap pystr (list pystr).
Variable P : gmap pystr pystr.

Definition label (C : pystr) : pystr := default [] (P !! C).

Definition stroke_drills (C : pystr) (strokes : list pystr) (i : nat)
    : list request :=
  replicate 3 (Request C (Z.of_nat i) strokes 0 (Z.of_nat i + 1) (label C))
  ++ replicate 3 (Request C 0 strokes (Z.of_nat i + 1) 99 (label C)).

Definition char_drills (C : pystr) : list request :=
  let strokes := default [] (strokes_db !! C) in
  flat_map (stroke_drills C strokes) (seq 0 (length strokes)).

Definition drills (cs : list pystr) : list request :=
  flat_map char_drills cs.

(** The review that uses the [d]-th number of the random source. *)
Definition review (d : nat) : request :=
  let C := default [] (chars !! (rnd d mod length chars)%nat) in
  Request C 0 [] 99 99 (label C).

Definition reviews (d : nat) : list request := map review (seq d 10).

Definition pass (d : nat) : list request := drills chars ++ reviews d.

(** [m] passes, the first review of the first one using draw [d]. *)
Fixpoint passes (m : nat) (d : nat) : list request :=
  match m with
  | O => []
  | S m' => pass d ++ passes m' (d + 10)
  end.

(** Two frames from which the generator goes on in the same way. *)
Definition same_resume (fr1 fr2 : frame) : Prop :=
  forall w, advance rnd chars strokes_db P fr1 w
              = advance rnd chars strokes_db P fr2 w.

(** From [fr] in [w] the next requests are [l]; the generator is then in
    [w'], at a frame that resumes as [fr'] does. *)
Definition emits (fr : frame) (w : world) (l : list request)
    (fr' : frame) (w' : world) : Prop :=
  exists fr'', requests rnd chars strokes_db P (length l) fr w = Ret (l, fr'') w'
               /\ same_resume fr'' fr'.

(** A character that the drill can pass: it has strokes recorded, and a
    pronunciation if there is a stroke to show. *)
Definition drillable (C : pystr) : Prop :=
  exists strokes, strokes_db !! C = Some strokes
                  /\ (strokes <> [] -> is_Some (P !! C)).

(** A target list that is not empty and whose characters are in both
    stores. *)
Definition all_known : Prop :=
  chars <> []
  /\ Forall (fun c => is_Some (strokes_db !! c) /\ is_Some (P !! c)) chars.

End Schedule.

(** The file name under which a request is cached. *)
Definition req_fname (r : request) : pystr :=
  cell_fname (rq_C r) (rq_img_num r) (rq_skip_strokes r) (rq_stop_at r).

(** The strokes a request shows. *)
Definition req_paths (r : request) : list (pystr * Z) :=
  render_paths 0 (rq_strokes r) (rq_img_num r) (rq_skip_strokes r)
    (rq_stop_at r).

(** How often a file was written, and how often it is listed. *)
Definition renders (w : world) (fname : pystr) : nat :=
  length (filter (fun e => e.1 = fname) (written w)).
Definition listed (w : world) (fname : pystr) : nat :=
  length (filter (fun f => f = fname) (images w)).

(** A sequence of calls of [get_image]. *)
Fixpoint serve (rs : list request) : M (list pystr) :=
  match rs with
  | [] => mret []
  | r :: rs' =>
      fname ← call_get_image r;
      fnames ← serve rs';
      mret (fname :: fnames)
  end.

(** The image elements of a page: slot [k] holds the [k]-th file. *)
Definition placements (num_per_row size : Z) (fnames : list pystr)
    : list chunk :=
  imap (fun k fname =>
          IMAGE_TPL (Z.of_nat k mod num_per_row * size)
                    ((Z.of_nat k / num_per_row + 1) * size)
                    size size fname) fnames.

Definition origin (c : chunk) : Z * Z :=
  match c with
  | IMAGE_TPL x y _ _ _ => (x, y)
  | _ => (0, 0)
  end.

(** The slots of a grid of [cols] columns and [rows] rows under the
    header row, row by row. *)
Definition grid (cols rows : nat) (size : Z) : list (Z * Z) :=
  flat_map (fun r =>
    map (fun c => (Z.of_nat c * size, (Z.of_nat r + 1) * size)) (seq 0 cols))
    (seq 0 rows).

(** ** Worlds, caches and pages *)

(** The code points of [0] to [9]. *)
Definition is_digit (c : codepoint) : Prop := (48 <= c <= 57)%N.

(** The cache key of a request. *)
Definition req_key (r : request) : pystr * Z * Z * Z :=
  (rq_C r, rq_img_num r, rq_skip_strokes r, rq_stop_at r).

(** A request for a character of one code point, with no negative
    number: what the generator asks for when [chars] is a [str]. *)
Definition plain_request (r : request) : Prop :=
  length (rq_C r) = 1%nat
  /\ 0 <= rq_img_num r /\ 0 <= rq_skip_strokes r /\ 0 <= rq_stop_at r.

(** The world after a call that finds no file of that name. *)
Definition cache_add (r : request) (w : world) : world :=
  World (images w ++ [req_fname r])
        (written w ++ [(req_fname r, CellFile (rq_add_text r) (req_paths r))])
        (draws w) (fi w).

(** The list of the run names each file once, in the order of writing. *)
Definition cache_ok (w : world) : Prop :=
  NoDup (images w) /\ map fst (written w) = images w.

(** Every file of the list has been written. *)
Definition kept (w : world) : Prop :=
  forall f, f ∈ images w -> f ∈ map fst (written w).

(** A world with another state of [random], or another content of [fi]. *)
Definition with_draws (d : nat) (w : world) : world :=
  World (images w) (written w) d (fi w).

Definition with_fi (f : list chunk) (w : world) : world :=
  World (images w) (written w) (draws w) f.

(** An outcome with its world changed, and the world of an outcome. *)
Definition on_world {A} (g : world -> world) (o : outcome A) : outcome A :=
  match o with
  | Ret a w => Ret a (g w)
  | Raise e w => Raise e (g w)
  end.

Definition outcome_world {A} (o : outcome A) : world :=
  match o with
  | Ret _ w => w
  | Raise _ w => w
  end.

(** The part of a world that resuming the generator depends on. *)
Definition only_draws (w : world) : world := World [] [] (draws w) [].

(** The image elements of the slots from [s] on. *)
Definition placements_from (s : nat) (num_per_row size : Z)
    (fnames : list pystr) : list chunk :=
  imap (fun k fname =>
          IMAGE_TPL (Z.of_nat (s + k) mod num_per_row * size)
                    ((Z.of_nat (s + k) / num_per_row + 1) * size)
                    size size fname) fnames.

(** ['%s (%s)' % (c, P[c])] for a character that has an entry. *)
Definition header_item (P : gmap pystr pystr) (c : pystr) : pystr :=
  c ++ py " (" ++ label P c ++ py ")".

(** [gen_svg] up to its loop: the world in which the first item is
    pulled. *)
Definition before_loop (P : gmap pystr pystr) (chars : list pystr)
    (w : world) : world :=
  World [] (written w) (draws w)
    (fi w ++ [HEADER_SINGLE;
              TEXT (join (py ", ") (map (header_item P) chars))]).

(** ** What a cell shows *)

(** The width [get_image] gives to stroke number [n] of a cell that
    emphasises [img_num]. *)
Definition line_size (img_num : Z) (n : nat) : Z :=
  if decide (Z.of_nat n <= img_num) then 20 else 10.

(** ** What the loaders assign *)

(** The assignments [ret[x['character']] = x['strokes']] of
    [load_strokes_db] and [d[j['character']] = j['pinyin'][0]] of
    [load_dictionary], in the order of the lines. *)
Definition strokes_entries (ls : list (json_line graphics_entry))
    : list (pystr * list pystr) :=
  omap (fun l => match l with
                 | Decoded x => Some (g_character x, g_strokes x)
                 | _ => None
                 end) ls.

Definition dictionary_entries (ls : list (json_line dictionary_entry))
    : list (pystr * pystr) :=
  omap (fun l => match l with
                 | Decoded j =>
                     match d_pinyin j with
                     | p0 :: _ => Some (d_character j, p0)
                     | [] => None
                     end
                 | _ => None
                 end) ls.

(** The value of the last assignment to [k]. *)
Definition last_assigned {V} (k : pystr) (kvs : list (pystr * V)) : option V :=
  snd <$> last (filter (fun kv => kv.1 = k) kvs).

(** The dict after the assignments [kvs] on [m]. *)
Definition assign {V} (m : gmap pystr V) (kvs : list (pystr * V))
    : gmap pystr V :=
  foldl (fun m kv => <[kv.1 := kv.2]> m) m kvs.

(** ** The requests and the files of a target list *)

(** The names under which the cells of [C] are cached: one per stroke for
    tracing, one per stroke for recall, and the review. *)
Definition char_names (strokes_db : gmap pystr (list pystr)) (C : pystr)
    : list pystr :=
  map (fun i => cell_fname C (Z.of_nat i) 0 (Z.of_nat i + 1))
    (seq 0 (length (default [] (strokes_db !! C))))
  ++ map (fun i => cell_fname C 0 (Z.of_nat i + 1) 99)
       (seq 0 (length (default [] (strokes_db !! C))))
  ++ [cell_fname C 0 99 99].

Definition cell_names (strokes_db : gmap pystr (list pystr))
    (chars : list pystr) : list pystr :=
  flat_map (char_names strokes_db) chars.

(** A request as [gen_images] makes them: for a target character with
    its pronunciation, and either a tracing or a recall request for one
    of its strokes, or a review. *)
Definition curriculum_request (chars : list pystr)
    (strokes_db : gmap pystr (list pystr)) (P : gmap pystr pystr)
    (r : request) : Prop :=
  exists C text,
    C ∈ chars /\ P !! C = Some text
    /\ ((exists strokes i,
           strokes_db !! C = Some strokes /\ (i < length strokes)%nat
           /\ r = Request C (Z.of_nat i) strokes 0 (Z.of_nat i + 1) text)
        \/ (exists strokes i,
              strokes_db !! C = Some strokes /\ (i < length strokes)%nat
              /\ r = Request C 0 strokes (Z.of_nat i + 1) 99 text)
        \/ r = Request C 0 [] 99 99 text).

(** What holds of the loop variables at every loop head the generator
    comes to. *)
Definition frame_ok (chars : list pystr)
    (strokes_db : gmap pystr (list pystr)) (fr : frame) : Prop :=
  match fr with
  | AtWhile => True
  | AtChars rest => rest ⊆ chars
  | AtTrace rest C strokes i _ | AtRecall rest C strokes i _ =>
      rest ⊆ chars /\ C ∈ chars /\ strokes_db !! C = Some strokes
      /\ (i < length strokes)%nat
  | AtReview _ => True
  end.

(** A world in a run that started with an empty list and the files
    [written0]: the list has no name twice and names the files written
    since, in their order. *)
Definition run_ok (written0 : list (pystr * cell_file)) (w : world) : Prop :=
  NoDup (images w)
  /\ exists new, written w = written0 ++ new /\ map fst new = images w.

(** An image element of cells of [size] that lies on the page, under the
    header row. *)
Definition in_page (size : Z) (c : chunk) : Prop :=
  match c with
  | IMAGE_TPL x y width height _ =>
      0 <= x /\ x + width <= fst PAGE_SIZE
      /\ size <= y /\ y + height <= snd PAGE_SIZE
      /\ width = size /\ height = size
  | _ => False
  end.

(** Why the generator can raise: a review for an empty target list, or a
    target character that one of the stores does not have. *)
Definition generator_fault (chars : list pystr)
    (strokes_db : gmap pystr (list pystr)) (P : gmap pystr pystr)
    (e : exn) : Prop :=
  (e = IndexError /\ chars = [])
  \/ (e = KeyError
      /\ exists c, c ∈ chars /\ (strokes_db !! c = None \/ P !! c = None)).

(** ** The callers *)

(** [for C in chars] over a [str]: its characters, each a [str] of
    length one. *)
Definition str_chars (s : pystr) : list pystr := map (fun c => [c]) s.

(** [form.get('chars') or 'X'] in [gen]. *)
Definition gen_chars (form_chars : option pystr) : pystr :=
  match form_chars with
  | Some (c :: s) => c :: s
  | _ => py "X"
  end.

(** ** [main] *)

(** What [main] itself asks of the operating system and of the browser:
    opening the page file for writing, [gen_pdf], the loop that unlinks
    each file of [set(images)], and unlinking the page file. *)
Inductive os_action :=
| OPEN_W (path : pystr)
| GEN_PDF (infile outfile : pystr)
| UNLINK_EACH (fnames : gset pystr)
| UNLINK (path : pystr).

(** What a call of [main] leaves: [None] or the exception that ended it,
    the world, and the actions asked for, in their order. *)
Record main_result := MainResult {
  mr_value : exn + unit;
  mr_world : world;
  mr_actions : list os_action
}.

Section Main.

Variable rnd : nat -> nat.

(** [os.getcwd()] *)
Variable cwd : pystr.

(** The exception in which an action ends, if it does not succeed; this
    is for the environment to decide. *)
Variable os_fails : os_action -> option exn.

(** [main(logger, C, size, no_delete, no_pdf, graphics_txt_path)];
    [graphics_txt] and [dictionary_txt] are the two files read, and the
    file object [fi] that [gen_svg] gets is new and empty.  The cell
    files are written as in [get_image]. *)
Definition main (graphics_txt : list (json_line graphics_entry))
    (dictionary_txt : list (json_line dictionary_entry))
    (C : pystr) (size : Z) (no_delete no_pdf : bool) (w : world)
    : main_result :=
  match load_strokes_db graphics_txt with
  | inl e => MainResult (inl e) w []
  | inr strokes_db =>
    let svg_path := C ++ py ".svg" in
    match os_fails (OPEN_W svg_path) with
    | Some e => MainResult (inl e) w [OPEN_W svg_path]
    | None =>
      match gen_svg rnd dictionary_txt (str_chars C) strokes_db size
              (with_fi [] w) with
      | Raise e w' => MainResult (inl e) w' [OPEN_W svg_path]
      | Ret images w' =>
        if no_pdf then MainResult (inr tt) w' [OPEN_W svg_path]
        else
          let base_path := cwd ++ py "/" ++ C in
          let pdf := GEN_PDF (base_path ++ py ".svg")
                             (base_path ++ py ".pdf") in
          match os_fails pdf with
          | Some e => MainResult (inl e) w' [OPEN_W svg_path; pdf]
          | None =>
            if no_delete then MainResult (inr tt) w' [OPEN_W svg_path; pdf]
            else
              let each := UNLINK_EACH (list_to_set images) in
              match os_fails each with
              | Some e =>
                  MainResult (inl e) w' [OPEN_W svg_path; pdf; each]
              | None =>
                match os_fails (UNLINK svg_path) with
                | Some e =>
                    MainResult (inl e) w'
                      [OPEN_W svg_path; pdf; each; UNLINK svg_path]
                | None =>
                    MainResult (inr tt) w'
                      [OPEN_W svg_path; pdf; each; UNLINK svg_path]
                end
              end
          end
      end
    end
  end.

End Main.

(** ** A small run: the characters of [你好], as in [test_gen_nihao_200],
    with stroke lists cut short *)

Definition rnd0 : nat -> nat := fun _ => 0%nat.

Definition w0 : world := World [] [] 0 [].

Definition nihao : list pystr := [py "你"; py "好"].

Definition nihao_graphics_txt : list (json_line graphics_entry) :=
  [Decoded (GraphicsEntry (py "你") [py "M 1 1"; py "M 2 2"]);
   Decoded (GraphicsEntry (py "好") [py "M 3 3"]);
   EmptyLine].

Definition nihao_strokes_db : gmap pystr (list pystr) :=
  <[py "X" := []]>
    (<[py "好" := [py "M 3 3"]]> (<[py "你" := [py "M 1 1"; py "M 2 2"]]> ∅)).

Definition nihao_dictionary_txt : list (json_line dictionary_entry) :=
  [Decoded (DictionaryEntry (py "你") [py "nǐ"]);
   Decoded (DictionaryEntry (py "好") [py "hǎo"; py "hào"]);
   Decoded (DictionaryEntry (py "Q") [py "q"]);
   Decoded (DictionaryEntry (py "Z") [])].

Definition nihao_P : gmap pystr pystr :=
  <[py "X" := []]>
    (<[py "Q" := py "q"]>
       (<[py "好" := py "hǎo"]> (<[py "你" := py "nǐ"]> ∅))).

(** * Properties *)

(** ** File names *)

Lemma uint_codes_digits u : Forall is_digit (uint_codes u).
Proof.
  induction u; simpl; constructor; try assumption; unfold is_digit; lia.
Qed.

Lemma uint_codes_inj u v : uint_codes u = uint_codes v -> u = v.
Proof.
  revert v; induction u; intros [] Heq; simpl in Heq;
    try discriminate; try reflexivity;
    injection Heq as Heq; f_equal; auto.
Qed.

Lemma fmt_d_nonneg_digits z : 0 <= z -> Forall is_digit (fmt_d z).
Proof.
  intros Hz. unfold fmt_d.
  destruct z as [|p|p]; [apply uint_codes_digits .. | lia].
Qed.

Lemma fmt_d_inj a b : fmt_d a = fmt_d b -> a = b.
Proof.
  unfold fmt_d. intros Heq.
  rewrite <- (DecimalZ.of_to a), <- (DecimalZ.of_to b).
  destruct (Z.to_int a) as [u|u], (Z.to_int b) as [v|v].
  - apply uint_codes_inj in Heq. now subst.
  - pose proof (uint_codes_digits u) as Hd. rewrite Heq in Hd.
    inversion Hd as [|? ? H45 ?]. unfold is_digit in H45. lia.
  - pose proof (uint_codes_digits v) as Hd. rewrite <- Heq in Hd.
    inversion Hd as [|? ? H45 ?]. unfold is_digit in H45. lia.
  - injection Heq as Heq. apply uint_codes_inj in Heq. now subst.
Qed.

(** Two rows of digits that end at the same separator are the same row. *)
Lemma digits_until_sep (sep : codepoint) (l1 l2 r1 r2 : pystr) :
  ~ is_digit sep -> Forall is_digit l1 -> Forall is_digit l2 ->
  l1 ++ sep :: r1 = l2 ++ sep :: r2 -> l1 = l2 /\ r1 = r2.
Proof.
  intros Hsep H1. revert l2.
  induction H1 as [|c l1 Hc H1 IH]; intros l2 H2 Heq.
  - destruct H2 as [|c2 l2 Hc2 H2]; simpl in Heq.
    + injection Heq as Heq. auto.
    + injection Heq as Hc Heq. subst. contradiction.
  - destruct H2 as [|c2 l2 Hc2 H2]; simpl in Heq.
    + injection Heq as Hc' Heq. subst. contradiction.
    + injection Heq as Hc' Heq. subst.
      destruct (IH l2 H2 Heq) as [-> ->]. auto.
Qed.

Lemma cell_fname_inj (C1 C2 : pystr) (a1 b1 c1 a2 b2 c2 : Z) :
  length C1 = 1%nat -> length C2 = 1%nat ->
  0 <= a1 -> 0 <= b1 -> 0 <= c1 -> 0 <= a2 -> 0 <= b2 -> 0 <= c2 ->
  cell_fname C1 a1 b1 c1 = cell_fname C2 a2 b2 c2 ->
  C1 = C2 /\ a1 = a2 /\ b1 = b2 /\ c1 = c2.
Proof.
  intros HC1 HC2 Ha1 Hb1 Hc1 Ha2 Hb2 Hc2.
  destruct C1 as [|x1 [|? ?]]; try discriminate.
  destruct C2 as [|x2 [|? ?]]; try discriminate.
  unfold cell_fname. change (py "-") with [45%N].
  change (py ".svg") with [46%N; 115%N; 118%N; 103%N].
  simpl. intros Heq. injection Heq as Hx Heq. subst x2.
  apply digits_until_sep in Heq as [Ha Heq];
    [| unfold is_digit; lia | now apply fmt_d_nonneg_digits ..].
  apply digits_until_sep in Heq as [Hb Heq];
    [| unfold is_digit; lia | now apply fmt_d_nonneg_digits ..].
  apply digits_until_sep in Heq as [Hc _];
    [| unfold is_digit; lia | now apply fmt_d_nonneg_digits ..].
  apply fmt_d_inj in Ha, Hb, Hc. auto.
Qed.

(** C10: for characters of one code point and non-negative integers, two
    requests get the same file name exactly when the character, the
    emphasised index, the number of strokes skipped and the stop index are
    all the same. *)
Theorem cell_fname_injective (C1 C2 : pystr) (a1 b1 c1 a2 b2 c2 : Z) :
  length C1 = 1%nat -> length C2 = 1%nat ->
  0 <= a1 -> 0 <= b1 -> 0 <= c1 -> 0 <= a2 -> 0 <= b2 -> 0 <= c2 ->
  cell_fname C1 a1 b1 c1 = cell_fname C2 a2 b2 c2
  <-> C1 = C2 /\ a1 = a2 /\ b1 = b2 /\ c1 = c2.
Proof.
  intros HC1 HC2 Ha1 Hb1 Hc1 Ha2 Hb2 Hc2. split.
  - now apply cell_fname_inj.
  - intros (-> & -> & -> & ->). reflexivity.
Qed.

(** Without the bound on the character the names do collide. *)
Example cell_fname_collision :
  cell_fname (py "1") 23 0 0 = cell_fname (py "12") 3 0 0.
Proof. reflexivity. Qed.

Example cell_fname_review : cell_fname (py "X") 0 99 99 = py "X0-99-99.svg".
Proof. reflexivity. Qed.

Example fmt_d_negative : fmt_d (-31) = py "-31".
Proof. reflexivity. Qed.

Example py_codepoints : py "你好" = [20320%N; 22909%N].
Proof. reflexivity. Qed.

(** ** The stores *)

Lemma strokes_comprehension_raises ls ret e :
  strokes_comprehension ls ret = inl e -> BadLine e ∈ ls.
Proof.
  revert ret. induction ls as [|[|e'|x] ls IH]; intros ret Hl; simpl in Hl.
  - discriminate.
  - apply list_elem_of_further. eauto.
  - injection Hl as ->. apply list_elem_of_here.
  - apply list_elem_of_further. eauto.
Qed.

Lemma dictionary_loop_raises ls d e :
  dictionary_loop ls d = inl e ->
  BadLine e ∈ ls \/ (e = JSONDecodeError /\ EmptyLine ∈ ls).
Proof.
  revert d. induction ls as [|[|e'|j] ls IH]; intros d Hl; simpl in Hl.
  - discriminate.
  - injection Hl as <-. right. split; [reflexivity | apply list_elem_of_here].
  - injection Hl as ->. left. apply list_elem_of_here.
  - destruct (d_pinyin j); apply IH in Hl as [H | [-> H]];
      (left + (right; split; [reflexivity|])); now apply list_elem_of_further.
Qed.

(** C8: whatever the two sources contain, a store that is loaded has the
    placeholder character: with no strokes in the stroke store, with the
    empty label in the pronunciation store.  A load that does not return
    a store raises the exception of a line that cannot be decoded. *)
Theorem placeholder_always_defined
    (graphics_txt : list (json_line graphics_entry))
    (dictionary_txt : list (json_line dictionary_entry)) :
  match load_strokes_db graphics_txt with
  | inr db => db !! PLACEHOLDER = Some []
  | inl e => BadLine e ∈ graphics_txt
  end
  /\
  match load_dictionary dictionary_txt with
  | inr P => P !! PLACEHOLDER = Some []
  | inl e =>
      BadLine e ∈ dictionary_txt
      \/ (e = JSONDecodeError /\ EmptyLine ∈ dictionary_txt)
  end.
Proof.
  split.
  - unfold load_strokes_db.
    destruct (strokes_comprehension graphics_txt ∅) as [e|ret] eqn:Hl.
    + eapply strokes_comprehension_raises, Hl.
    + apply lookup_insert_eq.
  - unfold load_dictionary.
    destruct (dictionary_loop dictionary_txt ∅) as [e|d] eqn:Hl.
    + eapply dictionary_loop_raises, Hl.
    + apply lookup_insert_eq.
Qed.

(** The placeholder of the source wins over an entry of the file. *)
Example load_strokes_db_overrides :
  load_strokes_db [Decoded (GraphicsEntry (py "X") [py "M 0 0"]); EmptyLine]
  = inr (<[py "X" := []]> ∅).
Proof.
  unfold load_strokes_db; simpl. now rewrite insert_insert_eq.
Qed.

Example load_dictionary_skips_empty_pinyin :
  load_dictionary [Decoded (DictionaryEntry (py "Q") [])]
  = inr (<[py "X" := []]> ∅).
Proof. reflexivity. Qed.

(** ** The cell cache *)

Lemma req_key_fname r r' : req_key r' = req_key r -> req_fname r' = req_fname r.
Proof. unfold req_key, req_fname. intros [= -> -> -> ->]. reflexivity. Qed.

Lemma call_get_image_hit r w :
  req_fname r ∈ images w -> call_get_image r w = Ret (req_fname r) w.
Proof.
  intros Hin. unfold call_get_image, get_image. fold (req_fname r).
  destruct (decide (req_fname r ∈ images w)); [reflexivity | contradiction].
Qed.

Lemma call_get_image_miss r w :
  req_fname r ∉ images w ->
  call_get_image r w = Ret (req_fname r) (cache_add r w).
Proof.
  intros Hin. unfold call_get_image, get_image. fold (req_fname r).
  destruct (decide (req_fname r ∈ images w)); [contradiction | reflexivity].
Qed.

Lemma call_get_image_ok r w :
  cache_ok w ->
  exists w', call_get_image r w = Ret (req_fname r) w' /\ cache_ok w'
    /\ req_fname r ∈ images w' /\ images w ⊆ images w'.
Proof.
  intros [Hnd Hw]. destruct (decide (req_fname r ∈ images w)) as [Hin|Hin].
  - exists w. rewrite call_get_image_hit by assumption.
    repeat split; auto.
  - exists (cache_add r w). rewrite call_get_image_miss by assumption.
    repeat split; simpl.
    + apply NoDup_app. repeat split; auto.
      * intros x Hx ->%list_elem_of_singleton. contradiction.
      * apply NoDup_singleton.
    + rewrite map_app, Hw. reflexivity.
    + apply elem_of_app. right. apply list_elem_of_here.
    + intros x Hx. apply elem_of_app. now left.
Qed.

Lemma serve_ok rs w :
  cache_ok w ->
  exists w', serve rs w = Ret (map req_fname rs) w' /\ cache_ok w'
    /\ images w ⊆ images w' /\ forall r, r ∈ rs -> req_fname r ∈ images w'.
Proof.
  revert w. induction rs as [|r rs IH]; intros w Hok.
  - exists w. repeat split; try apply Hok; auto. intros r Hr. inversion Hr.
  - destruct (call_get_image_ok r w Hok) as (w1 & Hc & Hok1 & Hin1 & Hsub1).
    destruct (IH w1 Hok1) as (w2 & Hs & Hok2 & Hsub2 & Hin2).
    exists w2. simpl. unfold mbind, M_bind. rewrite Hc, Hs.
    repeat split; try apply Hok2.
    + intros x Hx. auto.
    + intros r' [->|Hr']%elem_of_cons; auto.
Qed.

Lemma filter_eq_absent {A} `{EqDecision A} (x : A) (l : list A) :
  x ∉ l -> filter (fun y => y = x) l = [].
Proof.
  induction l as [|y l IH]; intros Hx; [reflexivity|].
  apply not_elem_of_cons in Hx as [Hne Hx].
  rewrite filter_cons. destruct (decide (y = x)); [congruence | auto].
Qed.

Lemma filter_eq_once {A} `{EqDecision A} (x : A) (l : list A) :
  NoDup l -> x ∈ l -> length (filter (fun y => y = x) l) = 1%nat.
Proof.
  induction 1 as [|y l Hy Hnd IH]; intros Hin.
  - inversion Hin.
  - rewrite filter_cons. destruct (decide (y = x)) as [->|Hne].
    + simpl. now rewrite filter_eq_absent.
    + apply elem_of_cons in Hin as [->|Hin]; [contradiction | auto].
Qed.

Lemma filter_fst_length {A B} `{EqDecision A} (x : A) (l : list (A * B)) :
  length (filter (fun e => e.1 = x) l)
  = length (filter (fun y => y = x) (map fst l)).
Proof.
  induction l as [|[a b] l IH]; [reflexivity|].
  simpl. rewrite !filter_cons. simpl.
  destruct (decide (a = x)); simpl; auto.
Qed.

(** C5: from the start of a run, whatever the sequence of requests, every
    request is answered with the file name of its key, the file of each
    key requested has been written once and is listed once, and one more
    request with a key already requested returns the same file name and
    changes nothing: no file is written, nothing is added to the list.
    Two plain requests with the same file name have the same key, so for
    them once per file name is once per key. *)
Theorem get_image_once (rs : list request) (w : world) :
  images w = [] -> written w = [] ->
  (exists w',
     serve rs w = Ret (map req_fname rs) w'
     /\ forall r r', r ∈ rs -> req_key r' = req_key r ->
          renders w' (req_fname r) = 1%nat
          /\ listed w' (req_fname r) = 1%nat
          /\ call_get_image r' w' = Ret (req_fname r) w')
  /\ (forall r1 r2, plain_request r1 -> plain_request r2 ->
        req_fname r1 = req_fname r2 -> req_key r1 = req_key r2).
Proof.
  intros Hi Hw. split.
  - assert (Hok : cache_ok w).
    { unfold cache_ok. rewrite Hi, Hw.
      split; [apply NoDup_nil_2 | reflexivity]. }
    destruct (serve_ok rs w Hok) as (w' & Hs & [Hnd Hmap] & _ & Hin).
    exists w'. split; [exact Hs|]. intros r r' Hr Hkey.
    specialize (Hin r Hr). repeat split.
    + unfold renders. rewrite filter_fst_length, Hmap.
      now apply filter_eq_once.
    + unfold listed. now apply filter_eq_once.
    + apply req_key_fname in Hkey. rewrite <- Hkey.
      apply call_get_image_hit. now rewrite Hkey.
  - intros r1 r2 (Hc1 & Ha1 & Hb1 & Hd1) (Hc2 & Ha2 & Hb2 & Hd2) Hname.
    unfold req_fname in Hname.
    apply cell_fname_inj in Hname as (HC & Ha & Hb & Hc); try assumption.
    unfold req_key. congruence.
Qed.

(** ** The curriculum *)

Section Curriculum.

Variable rnd : nat -> nat.
Variable chars : list pystr.
Variable strokes_db : gmap pystr (list pystr).
Variable P : gmap pystr pystr.

Abbreviation advance := (advance rnd chars strokes_db P).
Abbreviation requests := (requests rnd chars strokes_db P).
Abbreviation for_chars := (for_chars rnd chars strokes_db P).
Abbreviation stroke_drills := (stroke_drills P).
Abbreviation char_drills := (char_drills strokes_db P).
Abbreviation drills := (drills strokes_db P).
Abbreviation review := (review rnd chars P).
Abbreviation reviews := (reviews rnd chars P).
Abbreviation pass := (pass rnd chars strokes_db P).
Abbreviation passes := (passes rnd chars strokes_db P).
Abbreviation same_resume := (same_resume rnd chars strokes_db P).
Abbreviation emits := (emits rnd chars strokes_db P).
Abbreviation drillable := (drillable strokes_db P).
Abbreviation all_known := (all_known chars strokes_db P).

Lemma same_resume_refl fr : same_resume fr fr.
Proof. intros w. reflexivity. Qed.

Lemma same_resume_trans fr1 fr2 fr3 :
  same_resume fr1 fr2 -> same_resume fr2 fr3 -> same_resume fr1 fr3.
Proof. intros H1 H2 w. now rewrite H1. Qed.

Lemma requests_resume n fr1 fr2 w :
  same_resume fr1 fr2 -> requests (S n) fr1 w = requests (S n) fr2 w.
Proof. intros H. simpl. unfold mbind, M_bind. now rewrite H. Qed.

Lemma requests_app n1 n2 fr w :
  requests (n1 + n2) fr w =
  match requests n1 fr w with
  | Ret (l1, fr1) w1 =>
      match requests n2 fr1 w1 with
      | Ret (l2, fr2) w2 => Ret (l1 ++ l2, fr2) w2
      | Raise e w2 => Raise e w2
      end
  | Raise e w1 => Raise e w1
  end.
Proof.
  revert fr w. induction n1 as [|n1 IH]; intros fr w.
  - simpl. destruct (requests n2 fr w) as [[l2 fr2] w2|]; reflexivity.
  - simpl. unfold mbind, M_bind, mret, M_ret.
    destruct (advance fr w) as [[r fr1] w1|]; [|reflexivity].
    rewrite IH.
    destruct (requests n1 fr1 w1) as [[l1 fr1'] w1'|]; [|reflexivity].
    simpl.
    destruct (requests n2 fr1' w1') as [[l2 fr2] w2|]; reflexivity.
Qed.

Lemma emits_nil fr w : emits fr w [] fr w.
Proof. exists fr. split; [reflexivity | apply same_resume_refl]. Qed.

Lemma emits_resume_l fr fr0 w l fr' w' :
  same_resume fr fr0 -> emits fr0 w l fr' w' -> emits fr w l fr' w'.
Proof.
  intros Hr (fr'' & Hreq & Hres). destruct l as [|r l].
  - simpl in Hreq. injection Hreq as <- <-.
    exists fr. split; [reflexivity|]. eapply same_resume_trans; eauto.
  - exists fr''. split; [|exact Hres].
    simpl length. rewrite (requests_resume _ _ _ _ Hr). exact Hreq.
Qed.

Lemma emits_resume_r fr w l fr1 fr2 w' :
  emits fr w l fr1 w' -> same_resume fr1 fr2 -> emits fr w l fr2 w'.
Proof.
  intros (fr'' & Hreq & Hres) Hr. exists fr''. split; [exact Hreq|].
  eapply same_resume_trans; eauto.
Qed.

Lemma emits_app fr w l1 fr1 w1 l2 fr2 w2 :
  emits fr w l1 fr1 w1 -> emits fr1 w1 l2 fr2 w2 ->
  emits fr w (l1 ++ l2) fr2 w2.
Proof.
  intros (fr1' & Hreq1 & Hres1) H2.
  apply (emits_resume_l fr1' fr1) in H2; [|exact Hres1].
  destruct H2 as (fr2' & Hreq2 & Hres2).
  exists fr2'. split; [|exact Hres2].
  rewrite length_app, requests_app, Hreq1, Hreq2. reflexivity.
Qed.

Lemma emits_step fr w r fr1 w1 l fr' w' :
  advance fr w = Ret (r, fr1) w1 -> emits fr1 w1 l fr' w' ->
  emits fr w (r :: l) fr' w'.
Proof.
  intros Hadv (fr'' & Hreq & Hres). exists fr''. split; [|exact Hres].
  simpl. unfold mbind, M_bind. rewrite Hadv. simpl. rewrite Hreq. reflexivity.
Qed.

(** *** The drill of one stroke *)

Lemma advance_trace rest C strokes i k text w :
  P !! C = Some text -> (k < 3)%nat ->
  advance (AtTrace rest C strokes i k) w
  = Ret (Request C (Z.of_nat i) strokes 0 (Z.of_nat i + 1) text,
         AtTrace rest C strokes i (S k)) w.
Proof.
  intros HP Hk. unfold advance. destruct (decide (k < 3)%nat); [|lia].
  unfold yield_trace, trace_request, getitem, mbind, M_bind.
  rewrite HP. reflexivity.
Qed.

Lemma advance_trace_done rest C strokes i text w :
  P !! C = Some text ->
  advance (AtTrace rest C strokes i 3) w
  = Ret (Request C 0 strokes (Z.of_nat i + 1) 99 text,
         AtRecall rest C strokes i 1) w.
Proof.
  intros HP. unfold advance. destruct (decide (3 < 3)%nat); [lia|].
  unfold yield_recall, recall_request, getitem, mbind, M_bind.
  rewrite HP. reflexivity.
Qed.

Lemma advance_recall rest C strokes i k text w :
  P !! C = Some text -> (k < 3)%nat ->
  advance (AtRecall rest C strokes i k) w
  = Ret (Request C 0 strokes (Z.of_nat i + 1) 99 text,
         AtRecall rest C strokes i (S k)) w.
Proof.
  intros HP Hk. unfold advance. destruct (decide (k < 3)%nat); [|lia].
  unfold yield_recall, recall_request, getitem, mbind, M_bind.
  rewrite HP. reflexivity.
Qed.

Lemma emits_stroke rest C strokes i text w :
  P !! C = Some text ->
  emits (AtTrace rest C strokes i 0) w (stroke_drills C strokes i)
        (AtRecall rest C strokes i 3) w.
Proof.
  intros HP. unfold stroke_drills, label. rewrite HP. simpl.
  do 3 (eapply emits_step; [apply advance_trace; [exact HP | lia]|]).
  eapply emits_step; [apply advance_trace_done; exact HP|].
  do 2 (eapply emits_step; [apply advance_recall; [exact HP | lia]|]).
  apply emits_nil.
Qed.

(** *** The drill of one character *)

Lemma for_chars_nil : for_chars [] = yield_review rnd chars P 0.
Proof. reflexivity. Qed.

Lemma for_chars_cons C rest w :
  for_chars (C :: rest) w =
  match strokes_db !! C with
  | Some strokes =>
      if decide (0 < length strokes)%nat
      then yield_trace P rest C strokes 0 0 w
      else for_chars rest w
  | None => Raise KeyError w
  end.
Proof.
  simpl. unfold getitem, mbind, M_bind, mret, M_ret, raise.
  destruct (strokes_db !! C) as [strokes|]; [|reflexivity].
  destruct (decide (0 < length strokes)%nat); reflexivity.
Qed.

Lemma resume_next_stroke rest C strokes i :
  (S i < length strokes)%nat ->
  same_resume (AtRecall rest C strokes i 3) (AtTrace rest C strokes (S i) 0).
Proof.
  intros Hi w. unfold advance.
  destruct (decide (3 < 3)%nat); [lia|].
  destruct (decide (S i < length strokes)%nat); [|lia].
  destruct (decide (0 < 3)%nat); [reflexivity | lia].
Qed.

Lemma resume_last_stroke rest C strokes i :
  ~ (S i < length strokes)%nat ->
  same_resume (AtRecall rest C strokes i 3) (AtChars rest).
Proof.
  intros Hi w. unfold advance.
  destruct (decide (3 < 3)%nat); [lia|].
  destruct (decide (S i < length strokes)%nat); [contradiction | reflexivity].
Qed.

Lemma emits_strokes rest C strokes text w :
  P !! C = Some text ->
  forall j i, (i + S j = length strokes)%nat ->
  emits (AtTrace rest C strokes i 0) w
        (flat_map (stroke_drills C strokes) (seq i (S j))) (AtChars rest) w.
Proof.
  intros HP. induction j as [|j IH]; intros i Hij.
  - cbn [seq flat_map]. rewrite app_nil_r.
    eapply emits_resume_r; [eapply emits_stroke, HP|].
    apply resume_last_stroke. lia.
  - change (seq i (S (S j))) with (i :: seq (S i) (S j)).
    cbn [flat_map].
    eapply emits_app; [eapply emits_stroke, HP|].
    eapply emits_resume_l; [apply resume_next_stroke; lia|].
    apply IH. lia.
Qed.

Lemma resume_char_with_strokes C rest strokes :
  strokes_db !! C = Some strokes -> strokes <> [] ->
  same_resume (AtChars (C :: rest)) (AtTrace rest C strokes 0 0).
Proof.
  intros Hdb Hne w. unfold advance. rewrite for_chars_cons, Hdb.
  destruct (decide (0 < length strokes)%nat) as [_|Hlen].
  - destruct (decide (0 < 3)%nat); [reflexivity | lia].
  - destruct strokes; [contradiction | simpl in Hlen; lia].
Qed.

Lemma resume_char_without_strokes C rest :
  strokes_db !! C = Some [] ->
  same_resume (AtChars (C :: rest)) (AtChars rest).
Proof.
  intros Hdb w. unfold advance. rewrite for_chars_cons, Hdb. reflexivity.
Qed.

Lemma emits_char C rest w :
  drillable C ->
  emits (AtChars (C :: rest)) w (char_drills C) (AtChars rest) w.
Proof.
  intros (strokes & Hdb & HP). unfold char_drills. rewrite Hdb. simpl.
  destruct strokes as [|s strokes].
  - eapply emits_resume_l; [apply resume_char_without_strokes; exact Hdb|].
    apply emits_nil.
  - destruct HP as [text HP]; [discriminate|].
    eapply emits_resume_l;
      [apply resume_char_with_strokes; [exact Hdb | discriminate]|].
    eapply emits_strokes; [exact HP | reflexivity].
Qed.

Lemma emits_drills_before pre rest w :
  Forall drillable pre ->
  emits (AtChars (pre ++ rest)) w (drills pre) (AtChars rest) w.
Proof.
  induction 1 as [|C pre HC Hpre IH].
  - apply emits_nil.
  - unfold drills. cbn [flat_map app].
    eapply emits_app; [apply emits_char; exact HC | exact IH].
Qed.

Lemma emits_drills rest w :
  Forall drillable rest ->
  emits (AtChars rest) w (drills rest) (AtChars []) w.
Proof.
  induction 1 as [|C rest HC Hrest IH].
  - apply emits_nil.
  - unfold drills. cbn [flat_map].
    eapply emits_app; [apply emits_char; exact HC | exact IH].
Qed.

(** *** The reviews *)

Lemma advance_review i w :
  chars <> [] -> (forall c, c ∈ chars -> is_Some (P !! c)) ->
  (i < 10)%nat ->
  advance (AtReview i) w
  = Ret (review (draws w), AtReview (S i)) (with_draws (S (draws w)) w).
Proof.
  intros Hne HP Hi. unfold advance.
  destruct (decide (i < 10)%nat); [|lia].
  unfold yield_review, review_request, random_choice, review, label,
    mbind, M_bind.
  destruct (lookup_lt_is_Some_2 chars (rnd (draws w) mod length chars)%nat)
    as [c Hc].
  { apply Nat.mod_upper_bound. destruct chars; [contradiction | simpl; lia]. }
  rewrite Hc. simpl.
  destruct (HP c) as [text Htext]; [eapply list_elem_of_lookup_2, Hc|].
  unfold getitem. rewrite Htext. reflexivity.
Qed.

Lemma with_draws_same w : with_draws (draws w) w = w.
Proof. destruct w; reflexivity. Qed.

Lemma emits_reviews_from j :
  chars <> [] -> (forall c, c ∈ chars -> is_Some (P !! c)) ->
  forall i w, (i + j <= 10)%nat ->
  emits (AtReview i) w (map review (seq (draws w) j))
        (AtReview (i + j)) (with_draws (draws w + j) w).
Proof.
  intros Hne HP. induction j as [|j IH]; intros i w Hij.
  - rewrite !Nat.add_0_r, with_draws_same. apply emits_nil.
  - simpl. eapply emits_step; [apply advance_review; auto; lia|].
    replace (i + S j)%nat with (S i + j)%nat by lia.
    replace (with_draws (draws w + S j) w)
      with (with_draws (draws (with_draws (S (draws w)) w) + j)
              (with_draws (S (draws w)) w))
      by (unfold with_draws; simpl; f_equal; lia).
    apply (IH (S i) (with_draws (S (draws w)) w)). lia.
Qed.

Lemma resume_first_review : same_resume (AtChars []) (AtReview 0).
Proof.
  intros w. unfold advance. destruct (decide (0 < 10)%nat); [reflexivity | lia].
Qed.

Lemma resume_next_pass : same_resume (AtReview 10) AtWhile.
Proof.
  intros w. unfold advance. destruct (decide (10 < 10)%nat); [lia | reflexivity].
Qed.

Lemma resume_while : same_resume AtWhile (AtChars chars).
Proof. intros w. reflexivity. Qed.

(** *** One pass, and all of them *)

Lemma all_known_drillable : all_known -> Forall drillable chars.
Proof.
  intros [_ Hk]. eapply Forall_impl; [exact Hk|].
  intros c [[strokes Hs] Hp]. exists strokes. auto.
Qed.

Lemma all_known_labelled :
  all_known -> forall c, c ∈ chars -> is_Some (P !! c).
Proof.
  intros [_ Hk] c Hc. rewrite Forall_forall in Hk. now apply Hk.
Qed.

Lemma emits_pass w :
  all_known ->
  emits AtWhile w (pass (draws w)) AtWhile (with_draws (draws w + 10) w).
Proof.
  intros Hk. unfold pass, reviews.
  eapply emits_resume_l; [apply resume_while|].
  eapply emits_app; [apply emits_drills, all_known_drillable, Hk|].
  eapply emits_resume_l; [apply resume_first_review|].
  eapply emits_resume_r; [|apply resume_next_pass].
  apply (emits_reviews_from 10);
    [apply Hk | apply all_known_labelled, Hk | lia].
Qed.

Lemma emits_passes m :
  all_known ->
  forall w, emits AtWhile w (passes m (draws w)) AtWhile
                  (with_draws (draws w + 10 * m) w).
Proof.
  intros Hk. induction m as [|m IH]; intros w.
  - rewrite Nat.mul_0_r, Nat.add_0_r, with_draws_same. apply emits_nil.
  - simpl passes.
    eapply emits_app; [apply emits_pass, Hk|].
    replace (with_draws (draws w + 10 * S m) w)
      with (with_draws (draws (with_draws (draws w + 10) w) + 10 * m)
              (with_draws (draws w + 10) w))
      by (unfold with_draws; simpl; f_equal; lia).
    apply (IH (with_draws (draws w + 10) w)).
Qed.

Lemma requests_length n fr w l fr' w' :
  requests n fr w = Ret (l, fr') w' -> length l = n.
Proof.
  revert fr w l fr' w'. induction n as [|n IH]; intros fr w l fr' w' Hreq.
  - injection Hreq as <- _ _. reflexivity.
  - simpl in Hreq. unfold mbind, M_bind in Hreq.
    destruct (advance fr w) as [[r fr1] w1|]; [|discriminate].
    simpl in Hreq.
    destruct (requests n fr1 w1) as [[rs fr2] w2|] eqn:Hn; [|discriminate].
    injection Hreq as <- _ _. simpl. f_equal. eapply IH, Hn.
Qed.

Lemma requests_prefix n p fr w l fr' w' :
  requests (n + p) fr w = Ret (l, fr') w' ->
  exists fr1 w1, requests n fr w = Ret (take n l, fr1) w1.
Proof.
  rewrite requests_app. intros Hreq.
  destruct (requests n fr w) as [[l1 fr1] w1|] eqn:Hn; [|discriminate].
  destruct (requests p fr1 w1) as [[l2 fr2] w2|]; [|discriminate].
  injection Hreq as <- _ _. exists fr1, w1.
  apply requests_length in Hn as Hlen.
  rewrite take_app_length' by (symmetry; exact Hlen). reflexivity.
Qed.

Lemma stroke_drills_length C strokes i :
  length (stroke_drills C strokes i) = 6%nat.
Proof. reflexivity. Qed.

Lemma strokes_drills_length C strokes n i :
  length (flat_map (stroke_drills C strokes) (seq i n)) = (6 * n)%nat.
Proof.
  revert i. induction n as [|n IHn]; intros i; [reflexivity|].
  cbn [seq flat_map]. rewrite length_app, stroke_drills_length, IHn. lia.
Qed.

Lemma char_drills_length C :
  length (char_drills C) = (6 * length (default [] (strokes_db !! C)))%nat.
Proof. apply strokes_drills_length. Qed.

Lemma drills_length cs :
  length (drills cs)
  = (6 * list_sum (map (fun C => length (default [] (strokes_db !! C))) cs))%nat.
Proof.
  induction cs as [|C cs IH]; [reflexivity|].
  unfold drills in *. cbn [flat_map map]. unfold list_sum in *.
  cbn [fold_right]. rewrite length_app, IH, char_drills_length. lia.
Qed.

Lemma passes_length m d : (m <= length (passes m d))%nat.
Proof.
  revert d. induction m as [|m IH]; intros d; [simpl; lia|].
  simpl passes. rewrite length_app. specialize (IH (d + 10)%nat).
  unfold pass, reviews. rewrite length_app, length_map, length_seq. lia.
Qed.

Lemma requests_total n w :
  all_known ->
  exists fr w',
    requests n AtWhile w = Ret (take n (passes n (draws w)), fr) w'.
Proof.
  intros Hk. destruct (emits_passes n Hk w) as (fr & Hreq & _).
  pose proof (passes_length n (draws w)) as Hlen.
  replace (length (passes n (draws w)))
    with (n + (length (passes n (draws w)) - n))%nat in Hreq by lia.
  eapply requests_prefix, Hreq.
Qed.

Lemma review_shape d :
  chars <> [] ->
  rq_C (review d) ∈ chars
  /\ rq_skip_strokes (review d) = 99 /\ rq_stop_at (review d) = 99
  /\ req_paths (review d) = [].
Proof.
  intros Hne. repeat split. unfold review. cbn [rq_C].
  destruct (lookup_lt_is_Some_2 chars (rnd d mod length chars)%nat)
    as [c Hc].
  { apply Nat.mod_upper_bound. destruct chars; [contradiction | simpl; lia]. }
  rewrite Hc. eapply list_elem_of_lookup_2, Hc.
Qed.

(** C1, as the code has it: for a target list that is not empty and
    whose characters are all in the stroke store and in the pronunciation
    store, the generator never stops and never fails, and what it yields
    is pass after pass: per character, in order, and per stroke index [i]
    from 0, three requests (C, i, 0, i+1) and then three requests
    (C, 0, i+1, 99), that is 6n requests for a character of n strokes;
    then ten reviews (C', 0, 99, 99) without strokes, of characters C'
    taken from the target list. *)
Theorem gen_images_schedule :
  all_known ->
  (forall m w, exists fr,
      requests (length (passes m (draws w))) AtWhile w
      = Ret (passes m (draws w), fr) (with_draws (draws w + 10 * m) w))
  /\ (forall n w, exists fr w',
      requests n AtWhile w = Ret (take n (passes n (draws w)), fr) w')
  /\ (forall C, length (char_drills C)
                = (6 * length (default [] (strokes_db !! C)))%nat)
  /\ (forall d, length (reviews d) = 10%nat
       /\ forall r, r ∈ reviews d ->
            rq_C r ∈ chars /\ rq_skip_strokes r = 99 /\ rq_stop_at r = 99
            /\ req_paths r = []).
Proof.
  intros Hk. split; [|split; [|split]].
  - intros m w. destruct (emits_passes m Hk w) as (fr & Hreq & _).
    exists fr. exact Hreq.
  - intros n w. apply requests_total, Hk.
  - apply char_drills_length.
  - intros d. unfold reviews. split.
    + now rewrite length_map, length_seq.
    + intros r (d' & -> & _)%list_elem_of_fmap. apply review_shape, Hk.
Qed.

(** C7: a character recorded with no strokes has no drill request in the
    pass; the generator goes from it to the characters that follow
    without a request, without looking up its pronunciation and without
    an error; and the pass of a target list that holds it is the drills
    of the characters before it, the drills of those after it, and the
    ten reviews. *)
Theorem zero_strokes_fall_through (C : pystr) :
  strokes_db !! C = Some [] ->
  char_drills C = []
  /\ (forall rest w, advance (AtChars (C :: rest)) w = advance (AtChars rest) w)
  /\ (forall pre post w,
        chars = pre ++ C :: post ->
        Forall drillable pre -> Forall drillable post ->
        (forall c, c ∈ chars -> is_Some (P !! c)) ->
        exists fr,
          requests (length (drills pre ++ drills post ++ reviews (draws w)))
                   AtWhile w
          = Ret (drills pre ++ drills post ++ reviews (draws w), fr)
                (with_draws (draws w + 10) w)).
Proof.
  intros Hdb. split; [|split].
  - unfold char_drills. rewrite Hdb. reflexivity.
  - intros rest. apply resume_char_without_strokes, Hdb.
  - intros pre post w Hchars Hpre Hpost HP.
    assert (Hne : chars <> []) by (rewrite Hchars; now destruct pre).
    assert (Hdr : Forall drillable (C :: post)).
    { constructor; [|exact Hpost]. exists []. split; [exact Hdb | congruence]. }
    assert (Hall : emits AtWhile w
              (drills pre ++ drills post ++ reviews (draws w)) AtWhile
              (with_draws (draws w + 10) w)).
    { eapply (emits_resume_l _ (AtChars (pre ++ C :: post)));
        [rewrite <- Hchars; apply resume_while|].
      eapply emits_app; [apply emits_drills_before, Hpre|].
      eapply emits_resume_l; [apply resume_char_without_strokes, Hdb|].
      eapply emits_app; [apply emits_drills, Hpost|].
      eapply emits_resume_l; [apply resume_first_review|].
      eapply emits_resume_r; [|apply resume_next_pass].
      apply (emits_reviews_from 10); [exact Hne | exact HP | lia]. }
    destruct Hall as (fr & Hreq & _). exists fr. exact Hreq.
Qed.

(** *** What the generator reads and changes

    Resuming the generator reads the state of [random] only, and changes
    nothing else. *)

Ltac footprint :=
  unfold yield_trace, yield_recall, yield_review, trace_request,
    recall_request, review_request, random_choice, getitem,
    mbind, M_bind, mret, M_ret, raise;
  cbn [draws images written fi only_draws with_draws];
  repeat match goal with
  | |- context [match ?m !! ?k with _ => _ end] =>
      destruct (m !! k); cbn [draws images written fi]
  end;
  try reflexivity.

Lemma for_chars_footprint rest w :
  for_chars rest w =
  match for_chars rest (only_draws w) with
  | Ret x w1 => Ret x (with_draws (draws w1) w)
  | Raise e w1 => Raise e (with_draws (draws w1) w)
  end.
Proof.
  destruct w as [im wr d f].
  induction rest as [|C rest IH].
  - rewrite for_chars_nil. footprint.
  - rewrite !for_chars_cons.
    destruct (strokes_db !! C) as [strokes|]; [|reflexivity].
    destruct (decide (0 < length strokes)%nat); [footprint | exact IH].
Qed.

Lemma advance_footprint fr w :
  advance fr w =
  match advance fr (only_draws w) with
  | Ret x w1 => Ret x (with_draws (draws w1) w)
  | Raise e w1 => Raise e (with_draws (draws w1) w)
  end.
Proof.
  destruct fr as [|rest|rest C strokes i k|rest C strokes i k|i];
    unfold advance; try apply for_chars_footprint;
    repeat match goal with
    | |- context [decide ?p] => destruct (decide p)
    end;
    try apply for_chars_footprint; destruct w as [im wr d f]; footprint.
Qed.

(** The same for any two worlds in which [random] is in the same
    state. *)
Lemma advance_same_draws fr w w2 :
  draws w2 = draws w ->
  advance fr w2 =
  match advance fr w with
  | Ret x w1 => Ret x (with_draws (draws w1) w2)
  | Raise e w1 => Raise e (with_draws (draws w1) w2)
  end.
Proof.
  intros Hd. rewrite (advance_footprint fr w2), (advance_footprint fr w).
  unfold only_draws. rewrite Hd.
  destruct (advance fr (World [] [] (draws w) [])); reflexivity.
Qed.

Lemma advance_returns_world fr w x w1 :
  advance fr w = Ret x w1 -> w1 = with_draws (draws w1) w.
Proof.
  intros Hadv. pose proof (advance_same_draws fr w w eq_refl) as Hfp.
  rewrite Hadv in Hfp. now injection Hfp.
Qed.

Lemma advance_raises_world fr w e w1 :
  advance fr w = Raise e w1 -> w1 = with_draws (draws w1) w.
Proof.
  intros Hadv. pose proof (advance_same_draws fr w w eq_refl) as Hfp.
  rewrite Hadv in Hfp. now injection Hfp.
Qed.

Lemma advance_with_fi fr f w :
  advance fr (with_fi f w) = on_world (with_fi f) (advance fr w).
Proof.
  rewrite (advance_same_draws fr w (with_fi f w)) by reflexivity.
  destruct (advance fr w) as [x w1|e w1] eqn:Hadv; simpl.
  - apply advance_returns_world in Hadv. rewrite Hadv at 2. reflexivity.
  - apply advance_raises_world in Hadv. rewrite Hadv at 2. reflexivity.
Qed.

(** *** Pulling items *)

Abbreviation gen_images := (gen_images rnd chars strokes_db P).
Abbreviation pull := (pull rnd chars strokes_db P).
Abbreviation gen_svg_loop := (gen_svg_loop rnd chars strokes_db P).

Lemma call_get_image_returns r w :
  exists w', call_get_image r w = Ret (req_fname r) w'
             /\ draws w' = draws w /\ fi w' = fi w.
Proof.
  destruct (decide (req_fname r ∈ images w)) as [Hin|Hin].
  - exists w. now rewrite call_get_image_hit.
  - exists (cache_add r w). now rewrite call_get_image_miss.
Qed.

Lemma call_get_image_with_fi r f w :
  call_get_image r (with_fi f w) = on_world (with_fi f) (call_get_image r w).
Proof.
  destruct (decide (req_fname r ∈ images w)) as [Hin|Hin].
  - rewrite !call_get_image_hit by exact Hin. reflexivity.
  - rewrite !call_get_image_miss by exact Hin. reflexivity.
Qed.

Lemma gen_images_eq fr w :
  gen_images fr w =
  match advance fr w with
  | Ret (r, fr') w1 =>
      match call_get_image r w1 with
      | Ret fname w2 => Ret (fname, fr') w2
      | Raise e w2 => Raise e w2
      end
  | Raise e w1 => Raise e w1
  end.
Proof.
  unfold gen_images, mbind, M_bind.
  destruct (advance fr w) as [[r fr'] w1|]; reflexivity.
Qed.

Lemma gen_images_with_fi fr f w :
  gen_images fr (with_fi f w) = on_world (with_fi f) (gen_images fr w).
Proof.
  rewrite !gen_images_eq, advance_with_fi.
  destruct (advance fr w) as [[r fr'] w1|]; [|reflexivity]. simpl.
  rewrite call_get_image_with_fi.
  destruct (call_get_image r w1); reflexivity.
Qed.

Lemma pull_S n fr w :
  pull (S n) fr w =
  match gen_images fr w with
  | Ret (fname, fr1) w1 =>
      match pull n fr1 w1 with
      | Ret (fnames, fr2) w2 => Ret (fname :: fnames, fr2) w2
      | Raise e w2 => Raise e w2
      end
  | Raise e w1 => Raise e w1
  end.
Proof.
  simpl. unfold mbind, M_bind.
  destruct (gen_images fr w) as [[fname fr1] w1|]; [|reflexivity].
  destruct (pull n fr1 w1) as [[fnames fr2] w2|]; reflexivity.
Qed.

Lemma pull_app n1 n2 fr w :
  pull (n1 + n2) fr w =
  match pull n1 fr w with
  | Ret (l1, fr1) w1 =>
      match pull n2 fr1 w1 with
      | Ret (l2, fr2) w2 => Ret (l1 ++ l2, fr2) w2
      | Raise e w2 => Raise e w2
      end
  | Raise e w1 => Raise e w1
  end.
Proof.
  revert fr w. induction n1 as [|n1 IH]; intros fr w.
  - simpl. destruct (pull n2 fr w) as [[l2 fr2] w2|]; reflexivity.
  - change (S n1 + n2)%nat with (S (n1 + n2)). rewrite !pull_S.
    destruct (gen_images fr w) as [[fname fr1] w1|]; [|reflexivity].
    rewrite IH.
    destruct (pull n1 fr1 w1) as [[l1 fr1'] w1'|]; [|reflexivity].
    destruct (pull n2 fr1' w1') as [[l2 fr2] w2|]; reflexivity.
Qed.

Lemma pull_length n fr w l fr' w' :
  pull n fr w = Ret (l, fr') w' -> length l = n.
Proof.
  revert fr w l fr' w'. induction n as [|n IH]; intros fr w l fr' w' Hp.
  - injection Hp as <- _ _. reflexivity.
  - rewrite pull_S in Hp.
    destruct (gen_images fr w) as [[fname fr1] w1|]; [|discriminate].
    destruct (pull n fr1 w1) as [[fnames fr2] w2|] eqn:Hn; [|discriminate].
    injection Hp as <- _ _. simpl. f_equal. eapply IH, Hn.
Qed.

(** The items pulled are the files of the requests, and pulling moves
    [random] as the requests do and leaves [fi] alone. *)
Lemma pull_requests n :
  forall fr w rs fr' w1 w2,
  requests n fr w = Ret (rs, fr') w1 -> draws w2 = draws w ->
  exists w3, pull n fr w2 = Ret (map req_fname rs, fr') w3
             /\ draws w3 = draws w1 /\ fi w3 = fi w2.
Proof.
  induction n as [|n IH]; intros fr w rs fr' w1 w2 Hreq Hd.
  - injection Hreq as <- <- <-. exists w2. auto.
  - simpl in Hreq. unfold mbind, M_bind in Hreq.
    destruct (advance fr w) as [[r fr1] wa|] eqn:Hadv; [|discriminate].
    simpl in Hreq.
    destruct (requests n fr1 wa) as [[rs' fr2] wb|] eqn:Hn; [|discriminate].
    injection Hreq as <- <- <-.
    rewrite pull_S, gen_images_eq, (advance_same_draws fr w w2 Hd), Hadv.
    destruct (call_get_image_returns r (with_draws (draws wa) w2))
      as (wc & Hc & Hdc & Hfc).
    rewrite Hc.
    destruct (IH fr1 wa rs' fr2 wb wc Hn Hdc) as (w3 & Hp & Hd3 & Hf3).
    rewrite Hp. exists w3. repeat split; auto.
    rewrite Hf3, Hfc. reflexivity.
Qed.

(** The loop of [gen_svg] pulls one item per slot and writes its image
    element. *)
Lemma gen_svg_loop_pull (num_per_row size : Z) (n : nat) :
  ((0 < n)%nat -> num_per_row <> 0) ->
  forall s fr w f0,
  match pull n fr w with
  | Ret (fnames, fr') w' =>
      gen_svg_loop num_per_row size (map Z.of_nat (seq s n)) fr (with_fi f0 w)
      = Ret tt (with_fi (f0 ++ placements_from s num_per_row size fnames) w')
  | Raise e w' =>
      exists f1,
        gen_svg_loop num_per_row size (map Z.of_nat (seq s n)) fr
          (with_fi f0 w)
        = Raise e (with_fi (f0 ++ f1) w')
  end.
Proof.
  induction n as [|n IH]; intros Hnpr s fr w f0.
  - simpl. unfold placements_from. simpl. now rewrite app_nil_r.
  - assert (Hne : num_per_row <> 0) by (apply Hnpr; lia).
    rewrite pull_S. cbn [seq map]. simpl.
    unfold mbind, M_bind. rewrite gen_images_with_fi.
    destruct (gen_images fr w) as [[fname fr1] w1|e w1]; simpl;
      [|exists []; now rewrite app_nil_r].
    unfold pymod, floordiv.
    destruct (decide (num_per_row = 0)); [contradiction|]. simpl.
    specialize (IH (fun _ => Hne) (S s) fr1 w1
      (f0 ++ [IMAGE_TPL (Z.of_nat s mod num_per_row * size)
                ((Z.of_nat s / num_per_row + 1) * size) size size fname])).
    unfold fi_write. simpl. unfold with_fi in *. simpl in *.
    destruct (pull n fr1 w1) as [[fnames fr2] w2|e w2].
    + rewrite IH. f_equal. f_equal. rewrite <- app_assoc. f_equal.
      unfold placements_from. simpl. rewrite Nat.add_0_r. f_equal.
      apply imap_ext. intros k x _. simpl.
      replace (s + S k)%nat with (S (s + k)) by lia. reflexivity.
    + destruct IH as [f1 ->]. eexists. rewrite <- app_assoc. reflexivity.
Qed.

Lemma pull_prefix n p fr w l fr' w' :
  pull (n + p) fr w = Ret (l, fr') w' ->
  exists fr1 w1, pull n fr w = Ret (take n l, fr1) w1.
Proof.
  rewrite pull_app. intros Hp.
  destruct (pull n fr w) as [[l1 fr1] w1|] eqn:Hn; [|discriminate].
  destruct (pull p fr1 w1) as [[l2 fr2] w2|]; [|discriminate].
  injection Hp as <- _ _. exists fr1, w1.
  apply pull_length in Hn as Hlen.
  rewrite take_app_length' by (symmetry; exact Hlen). reflexivity.
Qed.

Lemma pull_known n w :
  all_known ->
  exists fr w',
    pull n AtWhile w
    = Ret (map req_fname (take n (passes n (draws w))), fr) w'.
Proof.
  intros Hk. destruct (requests_total n w Hk) as (fr & w1 & Hreq).
  destruct (pull_requests n AtWhile w _ fr w1 w Hreq eq_refl)
    as (w3 & Hp & _). eauto.
Qed.

Lemma gen_images_kept fr w fname fr' w' :
  kept w -> gen_images fr w = Ret (fname, fr') w' ->
  kept w' /\ fname ∈ images w' /\ images w ⊆ images w'.
Proof.
  intros Hkept. rewrite gen_images_eq.
  destruct (advance fr w) as [[r fr1] w1|] eqn:Hadv; [|discriminate].
  apply advance_returns_world in Hadv.
  destruct (decide (req_fname r ∈ images w1)) as [Hin|Hin].
  - rewrite call_get_image_hit by exact Hin. intros [= <- <- <-].
    rewrite Hadv in Hin |- *. simpl in *. auto.
  - rewrite call_get_image_miss by exact Hin. intros [= <- <- <-].
    rewrite Hadv. unfold kept. simpl. repeat split.
    + intros f [Hf | ->%list_elem_of_singleton]%elem_of_app;
        rewrite map_app; apply elem_of_app; [left; auto | right].
      apply list_elem_of_here.
    + apply elem_of_app. right. apply list_elem_of_here.
    + intros f Hf. apply elem_of_app. now left.
Qed.

Lemma pull_kept n :
  forall fr w fnames fr' w',
  kept w -> pull n fr w = Ret (fnames, fr') w' ->
  kept w' /\ images w ⊆ images w'
  /\ forall f, f ∈ fnames -> f ∈ images w'.
Proof.
  induction n as [|n IH]; intros fr w fnames fr' w' Hkept Hp.
  - injection Hp as <- <- <-. repeat split; auto. intros f Hf. inversion Hf.
  - rewrite pull_S in Hp.
    destruct (gen_images fr w) as [[fname fr1] w1|] eqn:Hg; [|discriminate].
    destruct (pull n fr1 w1) as [[l fr2] w2|] eqn:Hn; [|discriminate].
    injection Hp as <- <- <-.
    destruct (gen_images_kept _ _ _ _ _ Hkept Hg) as (Hk1 & Hin1 & Hsub1).
    destruct (IH _ _ _ _ _ Hk1 Hn) as (Hk2 & Hsub2 & Hin2).
    split; [exact Hk2|]. split.
    + intros f Hf. auto.
    + intros f [->|Hf]%elem_of_cons; auto.
Qed.

(** A character that is not in the stroke store stops the generator when
    the pass comes to it, and not before. *)
Lemma advance_unknown_char C rest w :
  strokes_db !! C = None -> advance (AtChars (C :: rest)) w = Raise KeyError w.
Proof. intros Hdb. unfold advance. rewrite for_chars_cons, Hdb. reflexivity. Qed.

Lemma advance_unlabelled_char C rest strokes w :
  strokes_db !! C = Some strokes -> strokes <> [] -> P !! C = None ->
  advance (AtChars (C :: rest)) w = Raise KeyError w.
Proof.
  intros Hdb Hne HP. unfold advance. rewrite for_chars_cons, Hdb.
  destruct (decide (0 < length strokes)%nat) as [_|Hlen].
  - unfold yield_trace, trace_request, getitem, mbind, M_bind.
    rewrite HP. reflexivity.
  - destruct strokes; [contradiction | simpl in Hlen; lia].
Qed.

Lemma pull_unknown_char pre C post w :
  chars = pre ++ C :: post -> Forall drillable pre ->
  strokes_db !! C = None ->
  exists fr w1,
    pull (length (drills pre)) AtWhile w
    = Ret (map req_fname (drills pre), fr) w1
    /\ forall p, pull (length (drills pre) + S p) AtWhile w
                 = Raise KeyError w1.
Proof.
  intros Hchars Hpre Hdb.
  assert (Hem : emits AtWhile w (drills pre) (AtChars (C :: post)) w).
  { eapply (emits_resume_l _ (AtChars (pre ++ C :: post)));
      [rewrite <- Hchars; apply resume_while|].
    apply emits_drills_before, Hpre. }
  destruct Hem as (fr & Hreq & Hres).
  destruct (pull_requests _ AtWhile w _ fr w w Hreq eq_refl)
    as (w1 & Hp & _).
  exists fr, w1. split; [exact Hp|]. intros p.
  rewrite pull_app, Hp, pull_S, gen_images_eq, Hres.
  rewrite advance_unknown_char by exact Hdb. reflexivity.
Qed.

End Curriculum.

(** ** The page *)

Lemma header_items_returns P cs w :
  (forall c, c ∈ cs -> is_Some (P !! c)) ->
  header_items P cs w = Ret (map (header_item P) cs) w.
Proof.
  induction cs as [|c cs IH]; intros HP; [reflexivity|].
  simpl. unfold getitem, mbind, M_bind, header_item, label.
  destruct (HP c) as [p Hp]; [apply list_elem_of_here|].
  rewrite Hp. simpl. rewrite IH; [reflexivity|].
  intros c' Hc'. apply HP. now apply list_elem_of_further.
Qed.

Lemma header_text_returns P cs w :
  (forall c, c ∈ cs -> is_Some (P !! c)) ->
  header_text P cs w = Ret (join (py ", ") (map (header_item P) cs)) w.
Proof.
  intros HP. unfold header_text, mbind, M_bind.
  rewrite header_items_returns by exact HP. reflexivity.
Qed.

Lemma header_items_raises P cs c w :
  c ∈ cs -> P !! c = None -> header_items P cs w = Raise KeyError w.
Proof.
  intros Hc HP.
  induction Hc as [c cs|c c0 cs Hc IH]; simpl; unfold getitem, mbind, M_bind.
  - rewrite HP. reflexivity.
  - destruct (P !! c0); [|reflexivity]. simpl. rewrite IH by exact HP.
    reflexivity.
Qed.

Lemma header_items_outcome P cs w :
  (forall c, c ∈ cs -> is_Some (P !! c))
  \/ header_items P cs w = Raise KeyError w.
Proof.
  induction cs as [|c0 cs IH].
  - left. intros c Hc. inversion Hc.
  - destruct (P !! c0) as [p|] eqn:Hp.
    + destruct IH as [IH|IH].
      * left. intros c [->|Hc]%elem_of_cons; [eauto | auto].
      * right. simpl. unfold getitem, mbind, M_bind. rewrite Hp. simpl.
        rewrite IH. reflexivity.
    + right. apply (header_items_raises P _ c0); [apply list_elem_of_here|].
      exact Hp.
Qed.

Lemma header_text_raises P cs c w :
  c ∈ cs -> P !! c = None -> header_text P cs w = Raise KeyError w.
Proof.
  intros Hc HP. unfold header_text, mbind, M_bind.
  rewrite (header_items_raises P cs c) by assumption. reflexivity.
Qed.

(** The number of slots is never negative, and is zero when a cell is
    wider than the page. *)
Lemma slots_nonneg size : size <> 0 -> 0 <= 200 / size * (300 / size - 1).
Proof.
  intros Hs. destruct (Z.lt_trichotomy size 0) as [Hneg|[?|Hpos]];
    [|contradiction|].
  - pose proof (Z.div_mod 200 size Hs). pose proof (Z.div_mod 300 size Hs).
    pose proof (Z.mod_neg_bound 200 size Hneg).
    pose proof (Z.mod_neg_bound 300 size Hneg). nia.
  - pose proof (Z.div_pos 200 size ltac:(lia) Hpos).
    pose proof (Z.div_pos 300 size ltac:(lia) Hpos).
    destruct (Z.eq_dec (300 / size) 0) as [Hz|Hz]; [|nia].
    assert (200 / size = 0); [|nia].
    apply Z.div_small. split; [lia|].
    destruct (Z.lt_ge_cases 300 size) as [?|Hle]; [lia|].
    pose proof (Z.div_le_lower_bound 300 size 1 Hpos ltac:(lia)). lia.
Qed.

Lemma slots_need_columns size :
  (0 < Z.to_nat (200 / size * (300 / size - 1)))%nat -> 200 / size <> 0.
Proof. intros Hn H0. rewrite H0 in Hn. simpl in Hn. lia. Qed.

Lemma slots_large_cell size :
  150 < size -> 200 / size * (300 / size - 1) = 0.
Proof.
  intros Hs.
  assert (H2 : 300 / size < 2) by (apply Z.div_lt_upper_bound; lia).
  pose proof (Z.div_pos 300 size ltac:(lia) ltac:(lia)) as H0.
  destruct (Z.eq_dec (300 / size) 1) as [->|H1]; [lia|].
  assert (H300 : 300 / size = 0) by lia.
  assert (300 < size).
  { destruct (Z.lt_ge_cases 300 size) as [?|Hle]; [assumption|].
    pose proof (Z.div_le_lower_bound 300 size 1 ltac:(lia) ltac:(lia)). lia. }
  rewrite (Z.div_small 200 size) by lia. reflexivity.
Qed.

Lemma origin_placements_from s num_per_row size fnames :
  map origin (placements_from s num_per_row size fnames)
  = map (fun k => (Z.of_nat k mod num_per_row * size,
                   (Z.of_nat k / num_per_row + 1) * size))
        (seq s (length fnames)).
Proof.
  revert s. induction fnames as [|f fnames IH]; intros s; [reflexivity|].
  unfold placements_from in *. simpl. rewrite Nat.add_0_r. f_equal.
  rewrite <- IH. f_equal. apply imap_ext. intros k x _. simpl.
  replace (s + S k)%nat with (S (s + k)) by lia. reflexivity.
Qed.

Section Layout.

Variable rnd : nat -> nat.

Lemma with_fi_same w : with_fi (fi w) w = w.
Proof. destruct w; reflexivity. Qed.

Lemma gen_svg_eq dictionary_txt P chars strokes_db size w :
  load_dictionary dictionary_txt = inr P -> size <> 0 ->
  (forall c, c ∈ chars -> is_Some (P !! c)) ->
  gen_svg rnd dictionary_txt chars strokes_db size w =
  match gen_svg_loop rnd chars strokes_db P (200 / size) size
          (py_range (200 / size * (300 / size - 1))) AtWhile
          (before_loop P chars w) with
  | Ret _ w4 => Ret (images w4) (with_fi (fi w4 ++ [FOOTER_SINGLE]) w4)
  | Raise e w4 => Raise e w4
  end.
Proof.
  intros Hload Hs HP.
  unfold gen_svg. rewrite Hload. simpl lift.
  unfold mbind, M_bind, mret, M_ret, floordiv. simpl fst. simpl snd.
  destruct (decide (size = 0)); [contradiction|].
  unfold mret, M_ret, fi_write at 1. cbv zeta. cbn beta iota.
  rewrite header_text_returns by exact HP.
  unfold fi_write at 1. unfold new_images.
  cbn [images written draws fi]. rewrite <- app_assoc.
  change (World [] (written w) (draws w) _) with (before_loop P chars w).
  destruct (gen_svg_loop rnd chars strokes_db P _ size _ AtWhile _);
    reflexivity.
Qed.

Lemma gen_svg_pull dictionary_txt P chars strokes_db size w :
  load_dictionary dictionary_txt = inr P -> size <> 0 ->
  (forall c, c ∈ chars -> is_Some (P !! c)) ->
  match pull rnd chars strokes_db P
          (Z.to_nat (200 / size * (300 / size - 1))) AtWhile
          (before_loop P chars w) with
  | Ret (fnames, fr) w2 =>
      gen_svg rnd dictionary_txt chars strokes_db size w
      = Ret (images w2)
            (with_fi (fi (before_loop P chars w)
                      ++ placements (200 / size) size fnames
                      ++ [FOOTER_SINGLE]) w2)
  | Raise e w2 =>
      exists f1, gen_svg rnd dictionary_txt chars strokes_db size w
                 = Raise e (with_fi (fi (before_loop P chars w) ++ f1) w2)
  end.
Proof.
  intros Hload Hs HP.
  pose proof (gen_svg_loop_pull rnd chars strokes_db P (200 / size) size
                (Z.to_nat (200 / size * (300 / size - 1)))
                (slots_need_columns size) 0 AtWhile (before_loop P chars w)
                (fi (before_loop P chars w))) as Hloop.
  rewrite with_fi_same in Hloop.
  rewrite (gen_svg_eq _ P) by assumption. unfold py_range.
  destruct (pull rnd chars strokes_db P _ AtWhile (before_loop P chars w))
    as [[fnames fr] w2|e w2].
  - rewrite Hloop. unfold with_fi. simpl. rewrite <- !app_assoc. reflexivity.
  - destruct Hloop as [f1 ->]. exists f1. reflexivity.
Qed.

Lemma all_known_header P chars strokes_db :
  all_known chars strokes_db P -> forall c, c ∈ chars -> is_Some (P !! c).
Proof. apply all_known_labelled. Qed.

Lemma gen_svg_returns dictionary_txt P chars strokes_db size w :
  load_dictionary dictionary_txt = inr P -> size <> 0 ->
  all_known chars strokes_db P ->
  exists fr w2,
    pull rnd chars strokes_db P
      (Z.to_nat (200 / size * (300 / size - 1))) AtWhile
      (before_loop P chars w)
    = Ret (map req_fname
             (take (Z.to_nat (200 / size * (300 / size - 1)))
                (passes rnd chars strokes_db P
                   (Z.to_nat (200 / size * (300 / size - 1))) (draws w))),
           fr) w2
    /\ gen_svg rnd dictionary_txt chars strokes_db size w
       = Ret (images w2)
           (with_fi
              (fi (before_loop P chars w)
               ++ placements (200 / size) size
                    (map req_fname
                       (take (Z.to_nat (200 / size * (300 / size - 1)))
                          (passes rnd chars strokes_db P
                             (Z.to_nat (200 / size * (300 / size - 1)))
                             (draws w))))
               ++ [FOOTER_SINGLE]) w2).
Proof.
  intros Hload Hs Hk.
  destruct (pull_known rnd chars strokes_db P
              (Z.to_nat (200 / size * (300 / size - 1)))
              (before_loop P chars w) Hk) as (fr & w2 & Hp).
  pose proof (gen_svg_pull dictionary_txt P chars strokes_db size w Hload Hs
                (all_known_header _ _ _ Hk)) as Hg.
  rewrite Hp in Hg. exists fr, w2. split; [exact Hp | exact Hg].
Qed.

Lemma grid_nodup : NoDup (grid 20 29 10).
Proof. apply (bool_decide_unpack _). vm_compute. exact I. Qed.

Lemma gen_svg_returns_inv dictionary_txt chars strokes_db size w imgs w' :
  gen_svg rnd dictionary_txt chars strokes_db size w = Ret imgs w' ->
  exists P, load_dictionary dictionary_txt = inr P /\ size <> 0
            /\ forall c, c ∈ chars -> is_Some (P !! c).
Proof.
  unfold gen_svg.
  destruct (load_dictionary dictionary_txt) as [e|P]; [discriminate|].
  simpl lift. unfold mbind, M_bind, mret, M_ret, floordiv.
  destruct (decide (size = 0)) as [|Hs]; [discriminate|].
  unfold mret, M_ret, fi_write at 1. cbv zeta. cbn beta iota.
  intros Hret. exists P. split; [reflexivity|]. split; [exact Hs|].
  unfold header_text, mbind, M_bind in Hret.
  destruct (header_items_outcome P chars
              (World (images w) (written w) (draws w)
                 (fi w ++ [HEADER_SINGLE]))) as [HP|Hraise];
    [exact HP|].
  rewrite Hraise in Hret. discriminate.
Qed.

(** C2: whenever [gen_svg] returns a page, the cell size is not zero, the
    page has [200 div size] columns, and exactly
    [(200 div size) * (300 div size - 1)] items were pulled from the
    generator, no more: the list returned and the world left are those
    after that many pulls, and item [k] is placed at
    [x = (k mod columns) * size], [y = (k div columns + 1) * size] with
    width and height [size].  For size 10 these are 580 image elements
    that fill the 20 by 29 grid under the header row by row, each slot
    once.  And [gen_svg] does return a page for every size other than
    zero when the target list is not empty and its characters are in
    both stores. *)
Theorem gen_svg_layout dictionary_txt chars strokes_db size w :
  (forall imgs w',
     gen_svg rnd dictionary_txt chars strokes_db size w = Ret imgs w' ->
     exists P fnames fr w2,
       load_dictionary dictionary_txt = inr P /\ size <> 0
       /\ pull rnd chars strokes_db P
            (Z.to_nat (200 / size * (300 / size - 1))) AtWhile
            (before_loop P chars w) = Ret (fnames, fr) w2
       /\ Z.of_nat (length fnames) = 200 / size * (300 / size - 1)
       /\ imgs = images w2
       /\ w' = with_fi
                 (fi (before_loop P chars w)
                  ++ imap (fun k fname =>
                       IMAGE_TPL (Z.of_nat k mod (200 / size) * size)
                                 ((Z.of_nat k / (200 / size) + 1) * size)
                                 size size fname) fnames
                  ++ [FOOTER_SINGLE]) w2
       /\ (size = 10 ->
           length fnames = 580%nat
           /\ map origin
                (imap (fun k fname =>
                   IMAGE_TPL (Z.of_nat k mod (200 / size) * size)
                             ((Z.of_nat k / (200 / size) + 1) * size)
                             size size fname) fnames)
              = grid 20 29 10
           /\ NoDup (grid 20 29 10)))
  /\ (forall P,
        load_dictionary dictionary_txt = inr P -> size <> 0 ->
        all_known chars strokes_db P ->
        exists imgs w',
          gen_svg rnd dictionary_txt chars strokes_db size w = Ret imgs w').
Proof.
  split.
  - intros imgs w' Hret.
    destruct (gen_svg_returns_inv _ _ _ _ _ _ _ Hret) as (P & Hload & Hs & HP).
    pose proof (gen_svg_pull dictionary_txt P chars strokes_db size w
                  Hload Hs HP) as Hg.
    destruct (pull rnd chars strokes_db P _ AtWhile (before_loop P chars w))
      as [[fnames fr] w2|e w2] eqn:Hp.
    2: { destruct Hg as [f1 Hg]. rewrite Hg in Hret. discriminate. }
    rewrite Hg in Hret. injection Hret as <- <-.
    exists P, fnames, fr, w2.
    apply pull_length in Hp as Hlen.
    split; [exact Hload|]. split; [exact Hs|]. split; [exact Hp|].
    split; [rewrite Hlen, Z2Nat.id by (apply slots_nonneg, Hs); reflexivity|].
    split; [reflexivity|]. split; [reflexivity|].
    intros ->. split; [exact Hlen|]. split; [|apply grid_nodup].
    change (imap _ fnames) with (placements_from 0 (200 / 10) 10 fnames).
    rewrite origin_placements_from, Hlen. vm_compute. reflexivity.
  - intros P Hload Hs Hk.
    destruct (gen_svg_returns dictionary_txt P chars strokes_db size w
                Hload Hs Hk) as (fr & w2 & _ & Hg). eauto.
Qed.

(** C3, as the code has it: there is no size check and no [InvalidSize].
    With size 0 [gen_svg] raises [ZeroDivisionError] before it writes or
    pulls anything; with any other size, also a negative one, it returns
    a page; and with a size above 150, such as 201, the page it returns
    is empty: the header and no cell. *)
Theorem gen_svg_size dictionary_txt P chars strokes_db w :
  load_dictionary dictionary_txt = inr P ->
  all_known chars strokes_db P ->
  gen_svg rnd dictionary_txt chars strokes_db 0 w = Raise ZeroDivisionError w
  /\ (forall size, size <> 0 ->
        exists imgs w',
          gen_svg rnd dictionary_txt chars strokes_db size w = Ret imgs w')
  /\ (forall size, 150 < size ->
        gen_svg rnd dictionary_txt chars strokes_db size w
        = Ret [] (with_fi (fi (before_loop P chars w) ++ [FOOTER_SINGLE])
                    (before_loop P chars w))).
Proof.
  intros Hload Hk. split; [|split].
  - unfold gen_svg. rewrite Hload. reflexivity.
  - intros size Hs.
    destruct (gen_svg_returns dictionary_txt P chars strokes_db size w
                Hload Hs Hk) as (fr & w2 & _ & Hg). eauto.
  - intros size Hs.
    pose proof (gen_svg_pull dictionary_txt P chars strokes_db size w Hload
                  ltac:(lia) (all_known_header _ _ _ Hk)) as Hg.
    rewrite slots_large_cell in Hg by exact Hs. exact Hg.
Qed.

(** C4, as the code has it: nothing is checked when the generator is
    made.  A target character that is not in the stroke store raises
    [KeyError] when the pass comes to it.  The characters before it are
    drilled first, six requests per stroke: a page with no more slots
    than that is produced without any failure, and on a larger page the
    failure comes after the cells of those requests have been written and
    listed, and leaves them there. *)
Theorem unknown_character_raises_when_reached
    dictionary_txt P chars strokes_db size w pre C post :
  load_dictionary dictionary_txt = inr P -> size <> 0 ->
  (forall c, c ∈ chars -> is_Some (P !! c)) ->
  chars = pre ++ C :: post -> Forall (drillable strokes_db P) pre ->
  strokes_db !! C = None ->
  ((Z.to_nat (200 / size * (300 / size - 1))
      <= length (drills strokes_db P pre))%nat ->
     exists imgs w',
       gen_svg rnd dictionary_txt chars strokes_db size w = Ret imgs w')
  /\ ((length (drills strokes_db P pre)
        < Z.to_nat (200 / size * (300 / size - 1)))%nat ->
      exists w',
        gen_svg rnd dictionary_txt chars strokes_db size w
        = Raise KeyError w'
        /\ forall r, r ∈ drills strokes_db P pre ->
             req_fname r ∈ images w'
             /\ req_fname r ∈ map fst (written w')).
Proof.
  intros Hload Hs HP Hchars Hpre Hdb.
  destruct (pull_unknown_char rnd chars strokes_db P pre C post
              (before_loop P chars w) Hchars Hpre Hdb)
    as (fr & w1 & Hp & Hfail).
  pose proof (gen_svg_pull dictionary_txt P chars strokes_db size w
                Hload Hs HP) as Hg.
  split; intros Hslots.
  - replace (length (drills strokes_db P pre))
      with (Z.to_nat (200 / size * (300 / size - 1))
            + (length (drills strokes_db P pre)
               - Z.to_nat (200 / size * (300 / size - 1))))%nat
      in Hp by lia.
    apply pull_prefix in Hp as (fr1 & w2 & Hp). rewrite Hp in Hg. eauto.
  - replace (Z.to_nat (200 / size * (300 / size - 1)))
      with (length (drills strokes_db P pre)
            + S (Z.to_nat (200 / size * (300 / size - 1))
                 - S (length (drills strokes_db P pre))))%nat
      in Hg by lia.
    rewrite Hfail in Hg. destruct Hg as [f1 Hg].
    eexists. split; [exact Hg|]. intros r Hr.
    assert (Hkept : kept (before_loop P chars w)) by (intros f Hf; inversion Hf).
    destruct (pull_kept rnd chars strokes_db P _ _ _ _ _ _ Hkept Hp)
      as (Hk1 & _ & Hin).
    assert (Hf : req_fname r ∈ images w1)
      by (apply Hin, list_elem_of_fmap; eauto).
    split; [exact Hf | apply Hk1, Hf].
Qed.

(** C6, as the code has it: a pronunciation that is missing is not
    replaced by the empty string.  [gen_svg] raises [KeyError] while it
    builds the header, after [HEADER_SINGLE] and before any item is
    pulled, when a target character has no entry; and the generator
    raises [KeyError] when it comes to a character with strokes and no
    entry. *)
Theorem missing_pronunciation_raises
    dictionary_txt P chars strokes_db size w c :
  load_dictionary dictionary_txt = inr P -> size <> 0 ->
  c ∈ chars -> P !! c = None ->
  gen_svg rnd dictionary_txt chars strokes_db size w
  = Raise KeyError (with_fi (fi w ++ [HEADER_SINGLE]) w)
  /\ (forall rest strokes w',
        strokes_db !! c = Some strokes -> strokes <> [] ->
        advance rnd chars strokes_db P (AtChars (c :: rest)) w'
        = Raise KeyError w').
Proof.
  intros Hload Hs Hc HP. split.
  - unfold gen_svg. rewrite Hload. simpl lift.
    unfold mbind, M_bind, mret, M_ret, floordiv. simpl fst. simpl snd.
    destruct (decide (size = 0)); [contradiction|].
    unfold mret, M_ret, fi_write at 1. cbv zeta. cbn beta iota.
    rewrite (header_text_raises P chars c) by assumption. reflexivity.
  - intros rest strokes w' Hdb Hne.
    now apply (advance_unlabelled_char rnd chars strokes_db P c rest strokes).
Qed.

(** C9: the header that [gen_svg] writes after [HEADER_SINGLE] is the
    items [C (pinyin)] of the target characters, in their order, joined
    with a comma and a space; for the characters of [你好] with the
    pronunciations [nǐ] and [hǎo] it is [你 (nǐ), 好 (hǎo)]. *)
Theorem gen_svg_header dictionary_txt P chars strokes_db size w :
  load_dictionary dictionary_txt = inr P -> size <> 0 ->
  (forall c, c ∈ chars -> is_Some (P !! c)) ->
  header_text P chars w
  = Ret (join (py ", ")
           (map (fun c => c ++ py " (" ++ default [] (P !! c) ++ py ")")
              chars)) w
  /\ (exists rest,
        fi (outcome_world (gen_svg rnd dictionary_txt chars strokes_db size w))
        = fi w ++ HEADER_SINGLE
            :: TEXT (join (py ", ")
                      (map (fun c => c ++ py " (" ++ default [] (P !! c)
                                       ++ py ")") chars))
            :: rest)
  /\ (chars = [py "你"; py "好"] ->
      P !! py "你" = Some (py "nǐ") -> P !! py "好" = Some (py "hǎo") ->
      header_text P chars w = Ret (py "你 (nǐ), 好 (hǎo)") w).
Proof.
  intros Hload Hs HP. split; [|split].
  - apply header_text_returns, HP.
  - pose proof (gen_svg_pull dictionary_txt P chars strokes_db size w
                  Hload Hs HP) as Hg.
    destruct (pull rnd chars strokes_db P _ AtWhile (before_loop P chars w))
      as [[fnames fr] w2|e w2].
    + rewrite Hg. simpl. rewrite <- app_assoc. eexists. reflexivity.
    + destruct Hg as [f1 ->]. simpl. rewrite <- app_assoc.
      eexists. reflexivity.
  - intros -> H1 H2. rewrite header_text_returns by exact HP.
    unfold header_item, label. simpl map. rewrite H1, H2. reflexivity.
Qed.

End Layout.

(** ** The small run *)

Example nihao_strokes_db_loaded :
  load_strokes_db nihao_graphics_txt = inr nihao_strokes_db.
Proof. reflexivity. Qed.


Ltac known_chars :=
  split; [discriminate | repeat constructor; eexists; reflexivity].

Ltac labelled_chars :=
  intros c Hc; repeat (apply elem_of_cons in Hc as [->|Hc]);
  [eexists; reflexivity .. | inversion Hc].

Lemma cell_fname_injective_witness :
  cell_fname (py "你") 1 0 2 <> cell_fname (py "你") 0 2 99.
Proof.
  intros Heq.
  apply (cell_fname_injective (py "你") (py "你") 1 0 2 0 2 99) in Heq;
    [ destruct Heq as (_ & Heq & _); discriminate
    | reflexivity | reflexivity | lia .. ].
Defined.

Lemma get_image_once_witness :
  images w0 = [] /\ written w0 = []
  /\ exists w',
       serve [Request (py "好") 0 [py "M 3 3"] 0 1 (py "hǎo");
              Request (py "好") 0 [py "M 3 3"] 0 1 (py "hǎo")] w0
       = Ret [py "好0-0-1.svg"; py "好0-0-1.svg"] w'
       /\ renders w' (py "好0-0-1.svg") = 1%nat
       /\ listed w' (py "好0-0-1.svg") = 1%nat.
Proof.
  split; [reflexivity|]. split; [reflexivity|].
  destruct (get_image_once
              [Request (py "好") 0 [py "M 3 3"] 0 1 (py "hǎo");
               Request (py "好") 0 [py "M 3 3"] 0 1 (py "hǎo")] w0
              eq_refl eq_refl) as ((w' & Hs & Hall) & _).
  exists w'. split; [exact Hs|].
  destruct (Hall (Request (py "好") 0 [py "M 3 3"] 0 1 (py "hǎo"))
                 (Request (py "好") 0 [py "M 3 3"] 0 1 (py "hǎo")))
    as (Hr & Hl & _); [apply list_elem_of_here | reflexivity |].
  split; [exact Hr | exact Hl].
Defined.

Lemma gen_images_schedule_witness :
  all_known nihao nihao_strokes_db nihao_P
  /\ exists fr w',
       requests rnd0 nihao nihao_strokes_db nihao_P 28 AtWhile w0
       = Ret (passes rnd0 nihao nihao_strokes_db nihao_P 1 0, fr) w'.
Proof.
  assert (Hk : all_known nihao nihao_strokes_db nihao_P) by known_chars.
  split; [exact Hk|].
  destruct (gen_images_schedule rnd0 nihao nihao_strokes_db nihao_P Hk)
    as (Hpasses & _).
  destruct (Hpasses 1%nat w0) as [fr Hreq]. exists fr. eexists. exact Hreq.
Defined.

(** The claim C1 does not hold for the empty target list: the first item
    asked of the generator is a review, and [random.choice] raises on an
    empty list. *)
Lemma gen_images_empty_targets :
  requests rnd0 [] nihao_strokes_db nihao_P 1 AtWhile w0
  = Raise IndexError w0.
Proof. reflexivity. Qed.

Lemma zero_strokes_fall_through_witness :
  nihao_strokes_db !! py "X" = Some []
  /\ char_drills nihao_strokes_db nihao_P (py "X") = []
  /\ advance rnd0 [py "X"; py "好"] nihao_strokes_db nihao_P
       (AtChars [py "X"; py "好"]) w0
     = advance rnd0 [py "X"; py "好"] nihao_strokes_db nihao_P
         (AtChars [py "好"]) w0.
Proof.
  split; [reflexivity|].
  destruct (zero_strokes_fall_through rnd0 [py "X"; py "好"]
              nihao_strokes_db nihao_P (py "X") eq_refl) as (Hd & Hadv & _).
  split; [exact Hd | apply Hadv].
Defined.

Lemma gen_svg_layout_witness :
  load_dictionary nihao_dictionary_txt = inr nihao_P /\ 10 <> 0
  /\ all_known nihao nihao_strokes_db nihao_P
  /\ exists imgs w',
       gen_svg rnd0 nihao_dictionary_txt nihao nihao_strokes_db 10 w0
       = Ret imgs w'
       /\ exists P fnames fr w2,
            load_dictionary nihao_dictionary_txt = inr P
            /\ pull rnd0 nihao nihao_strokes_db P 580 AtWhile
                 (before_loop P nihao w0) = Ret (fnames, fr) w2
            /\ length fnames = 580%nat.
Proof.
  assert (Hk : all_known nihao nihao_strokes_db nihao_P) by known_chars.
  split; [reflexivity|]. split; [lia|]. split; [exact Hk|].
  destruct (gen_svg_layout rnd0 nihao_dictionary_txt nihao
              nihao_strokes_db 10 w0) as (Hpage & Hret).
  destruct (Hret nihao_P eq_refl ltac:(lia) Hk) as (imgs & w' & Hg).
  exists imgs, w'. split; [exact Hg|].
  destruct (Hpage imgs w' Hg)
    as (P & fnames & fr & w2 & Hl & _ & Hp & _ & _ & _ & H10).
  exists P, fnames, fr, w2. split; [exact Hl|]. split; [exact Hp|].
  apply H10. reflexivity.
Defined.

Lemma gen_svg_size_witness :
  load_dictionary nihao_dictionary_txt = inr nihao_P
  /\ all_known nihao nihao_strokes_db nihao_P
  /\ gen_svg rnd0 nihao_dictionary_txt nihao nihao_strokes_db 0 w0
     = Raise ZeroDivisionError w0.
Proof.
  assert (Hk : all_known nihao nihao_strokes_db nihao_P) by known_chars.
  split; [reflexivity|]. split; [exact Hk|].
  apply (gen_svg_size rnd0 nihao_dictionary_txt nihao_P nihao
           nihao_strokes_db w0 eq_refl Hk).
Defined.

(** The claim C3 does not hold for size 201: the page is returned, with
    its header and no cell. *)
Lemma gen_svg_size_201_empty_page :
  gen_svg rnd0 nihao_dictionary_txt nihao nihao_strokes_db 201 w0
  = Ret [] (World [] [] 0 [HEADER_SINGLE; TEXT (py "你 (nǐ), 好 (hǎo)");
                           FOOTER_SINGLE]).
Proof. reflexivity. Qed.

Lemma unknown_character_raises_when_reached_witness :
  load_dictionary nihao_dictionary_txt = inr nihao_P /\ 10 <> 0
  /\ [py "好"; py "Q"] = [py "好"] ++ py "Q" :: []
  /\ nihao_strokes_db !! py "Q" = None
  /\ exists w',
       gen_svg rnd0 nihao_dictionary_txt [py "好"; py "Q"] nihao_strokes_db
         10 w0 = Raise KeyError w'.
Proof.
  split; [reflexivity|]. split; [lia|]. split; [reflexivity|].
  split; [reflexivity|].
  destruct (unknown_character_raises_when_reached rnd0 nihao_dictionary_txt
              nihao_P [py "好"; py "Q"] nihao_strokes_db 10 w0
              [py "好"] (py "Q") [] eq_refl ltac:(lia)) as (_ & Hfail).
  - labelled_chars.
  - reflexivity.
  - repeat constructor. eexists. split; [reflexivity|]. intros _.
    eexists. reflexivity.
  - reflexivity.
  - destruct Hfail as (w' & Hg & _); [vm_compute; lia|]. exists w'. exact Hg.
Defined.

(** The claim C4 does not hold for the targets [好Q], [Q] not being in the
    stroke store: on a page of 580 slots the six cells of [好] are pulled,
    and their two files written and listed, before [KeyError] is raised;
    on a page of 4 slots nothing is raised at all. *)
Lemma unknown_character_found_late :
  gen_svg rnd0 nihao_dictionary_txt [py "好"; py "Q"] nihao_strokes_db 10 w0
  = Raise KeyError
      (World [py "好0-0-1.svg"; py "好0-1-99.svg"]
         [(py "好0-0-1.svg", CellFile (py "hǎo") [(py "M 3 3", 20)]);
          (py "好0-1-99.svg", CellFile (py "hǎo") [])]
         0
         [HEADER_SINGLE; TEXT (py "好 (hǎo), Q (q)");
          IMAGE_TPL 0 10 10 10 (py "好0-0-1.svg");
          IMAGE_TPL 10 10 10 10 (py "好0-0-1.svg");
          IMAGE_TPL 20 10 10 10 (py "好0-0-1.svg");
          IMAGE_TPL 30 10 10 10 (py "好0-1-99.svg");
          IMAGE_TPL 40 10 10 10 (py "好0-1-99.svg");
          IMAGE_TPL 50 10 10 10 (py "好0-1-99.svg")])
  /\ gen_svg rnd0 nihao_dictionary_txt [py "好"; py "Q"] nihao_strokes_db
       100 w0
     = Ret [py "好0-0-1.svg"; py "好0-1-99.svg"]
         (World [py "好0-0-1.svg"; py "好0-1-99.svg"]
            [(py "好0-0-1.svg", CellFile (py "hǎo") [(py "M 3 3", 20)]);
             (py "好0-1-99.svg", CellFile (py "hǎo") [])]
            0
            [HEADER_SINGLE; TEXT (py "好 (hǎo), Q (q)");
             IMAGE_TPL 0 100 100 100 (py "好0-0-1.svg");
             IMAGE_TPL 100 100 100 100 (py "好0-0-1.svg");
             IMAGE_TPL 0 200 100 100 (py "好0-0-1.svg");
             IMAGE_TPL 100 200 100 100 (py "好0-1-99.svg");
             FOOTER_SINGLE]).
Proof. split; vm_compute; reflexivity. Qed.

Lemma missing_pronunciation_raises_witness :
  load_dictionary nihao_dictionary_txt = inr nihao_P /\ 10 <> 0
  /\ py "Z" ∈ [py "你"; py "Z"] /\ nihao_P !! py "Z" = None
  /\ gen_svg rnd0 nihao_dictionary_txt [py "你"; py "Z"] nihao_strokes_db
       10 w0
     = Raise KeyError (World [] [] 0 [HEADER_SINGLE]).
Proof.
  assert (Hin : py "Z" ∈ [py "你"; py "Z"])
    by (apply list_elem_of_further, list_elem_of_here).
  split; [reflexivity|]. split; [lia|]. split; [exact Hin|].
  split; [reflexivity|].
  apply (missing_pronunciation_raises rnd0 nihao_dictionary_txt nihao_P
           [py "你"; py "Z"] nihao_strokes_db 10 w0 (py "Z")
           eq_refl ltac:(lia) Hin eq_refl).
Defined.

(** The claim C6 does not hold for a character that [dictionary.txt]
    lists without a pronunciation: the header is not built. *)
Lemma missing_pronunciation_not_replaced :
  gen_svg rnd0 nihao_dictionary_txt [py "Z"] nihao_strokes_db 10 w0
  = Raise KeyError (World [] [] 0 [HEADER_SINGLE]).
Proof. reflexivity. Qed.

Lemma gen_svg_header_witness :
  load_dictionary nihao_dictionary_txt = inr nihao_P /\ 10 <> 0
  /\ nihao_P !! py "你" = Some (py "nǐ")
  /\ nihao_P !! py "好" = Some (py "hǎo")
  /\ header_text nihao_P nihao w0 = Ret (py "你 (nǐ), 好 (hǎo)") w0.
Proof.
  split; [reflexivity|]. split; [lia|]. split; [reflexivity|].
  split; [reflexivity|].
  destruct (gen_svg_header rnd0 nihao_dictionary_txt nihao_P nihao
              nihao_strokes_db 10 w0 eq_refl ltac:(lia)) as (_ & _ & Hex).
  - labelled_chars.
  - apply Hex; reflexivity.
Defined.

(** * More of the program *)

(** ** What a cell shows *)

Lemma render_paths_from (n : nat) strokes img_num skip_strokes stop_at :
  render_paths (Z.of_nat n) strokes img_num skip_strokes stop_at
  = imap (fun j stroke =>
            (stroke,
             line_size img_num (Nat.max (Z.to_nat skip_strokes) n + j)))
      (drop (Z.to_nat skip_strokes - n)
         (take (Z.to_nat stop_at - n) strokes)).
Proof.
  revert n. induction strokes as [|s rest IH]; intros n.
  - now rewrite take_nil, drop_nil.
  - cbn [render_paths].
    replace (Z.of_nat n + 1) with (Z.of_nat (S n)) by lia. rewrite IH.
    destruct (decide (Z.of_nat n < skip_strokes \/ Z.of_nat n >= stop_at))
      as [Hout|Hin].
    + destruct (Z.to_nat stop_at - n)%nat as [|m] eqn:Hm.
      * replace (Z.to_nat stop_at - S n)%nat with 0%nat by lia.
        now rewrite !take_0, !drop_nil.
      * replace (Z.to_nat stop_at - S n)%nat with m by lia.
        cbn [take].
        destruct (Z.to_nat skip_strokes - n)%nat as [|a] eqn:Ha; [lia|].
        replace (Z.to_nat skip_strokes - S n)%nat with a by lia.
        cbn [drop]. apply imap_ext. intros j x _. simpl.
        do 2 f_equal. lia.
    + destruct (Z.to_nat stop_at - n)%nat as [|m] eqn:Hm; [lia|].
      replace (Z.to_nat stop_at - S n)%nat with m by lia.
      replace (Z.to_nat skip_strokes - n)%nat with 0%nat by lia.
      replace (Z.to_nat skip_strokes - S n)%nat with 0%nat by lia.
      cbn [take drop imap]. f_equal.
      * unfold line_size. rewrite Nat.add_0_r.
        replace (Nat.max (Z.to_nat skip_strokes) n) with n by lia.
        destruct (decide (Z.of_nat n - 1 < img_num)),
                 (decide (Z.of_nat n <= img_num)); (reflexivity || lia).
      * apply imap_ext. intros j x _. simpl. do 2 f_equal. lia.
Qed.

Lemma render_paths_shown strokes img_num skip_strokes stop_at :
  render_paths 0 strokes img_num skip_strokes stop_at
  = imap (fun j stroke =>
            (stroke, line_size img_num (Z.to_nat skip_strokes + j)))
      (drop (Z.to_nat skip_strokes) (take (Z.to_nat stop_at) strokes)).
Proof.
  change 0 with (Z.of_nat 0). rewrite render_paths_from.
  rewrite !Nat.sub_0_r. apply imap_ext. intros j x _. simpl.
  do 2 f_equal. lia.
Qed.


Lemma imap_const_snd {A B} (b : B) (f : nat -> A -> B) (l : list A) :
  (forall j x, l !! j = Some x -> f j x = b) ->
  imap (fun j x => (x, f j x)) l = map (fun x => (x, b)) l.
Proof.
  revert f. induction l as [|x l IH]; intros f Hf; [reflexivity|].
  cbn [imap map]. f_equal.
  - f_equal. now apply (Hf 0%nat).
  - apply (IH (fun j => f (S j))). intros j y Hy. now apply (Hf (S j)).
Qed.

Lemma trace_paths (C : pystr) (strokes : list pystr) (i : nat) (text : pystr) :
  req_paths (Request C (Z.of_nat i) strokes 0 (Z.of_nat i + 1) text)
  = map (fun stroke => (stroke, 20)) (take (S i) strokes).
Proof.
  unfold req_paths. cbn [rq_strokes rq_img_num rq_skip_strokes rq_stop_at].
  rewrite render_paths_shown.
  replace (Z.to_nat (Z.of_nat i + 1)) with (S i) by lia.
  change (Z.to_nat 0) with 0%nat. rewrite drop_0.
  apply imap_const_snd. intros j x Hj.
  apply lookup_lt_Some in Hj. rewrite length_take in Hj.
  unfold line_size. destruct (decide _); [reflexivity | lia].
Qed.

Lemma recall_paths (C : pystr) (strokes : list pystr) (i : nat) (text : pystr) :
  req_paths (Request C 0 strokes (Z.of_nat i + 1) 99 text)
  = map (fun stroke => (stroke, 10)) (drop (S i) (take 99 strokes)).
Proof.
  unfold req_paths. cbn [rq_strokes rq_img_num rq_skip_strokes rq_stop_at].
  rewrite render_paths_shown.
  replace (Z.to_nat (Z.of_nat i + 1)) with (S i) by lia.
  change (Z.to_nat 99) with 99%nat.
  apply imap_const_snd. intros j x Hj.
  unfold line_size. destruct (decide _); [lia | reflexivity].
Qed.

(** X2: the cells of the curriculum.  A tracing request for stroke [i]
    shows the strokes 0 to [i], all of them 20 wide; a recall request
    shows the strokes after [i] and before the hundredth, all of them 10
    wide; a review request shows no stroke. *)
Theorem curriculum_cells (C : pystr) (strokes : list pystr) (i : nat)
    (text : pystr) :
  req_paths (Request C (Z.of_nat i) strokes 0 (Z.of_nat i + 1) text)
  = map (fun stroke => (stroke, 20)) (take (S i) strokes)
  /\ req_paths (Request C 0 strokes (Z.of_nat i + 1) 99 text)
     = map (fun stroke => (stroke, 10)) (drop (S i) (take 99 strokes))
  /\ req_paths (Request C 0 [] 99 99 text) = [].
Proof.
  split; [apply trace_paths|]. split; [apply recall_paths | reflexivity].
Qed.

(** ** What the loaders assign *)

Lemma lookup_assign {V} (kvs : list (pystr * V)) (m : gmap pystr V) k :
  assign m kvs !! k
  = match last_assigned k kvs with
    | Some v => Some v
    | None => m !! k
    end.
Proof.
  unfold assign, last_assigned.
  revert m. induction kvs as [|[k0 v0] kvs IH]; intros m; [reflexivity|].
  cbn [foldl]. rewrite IH, filter_cons. cbn [fst snd].
  destruct (decide (k0 = k)) as [->|Hne].
  - rewrite last_cons.
    destruct (last (filter (fun kv => kv.1 = k) kvs)); simpl;
      [reflexivity | apply lookup_insert_eq].
  - destruct (last (filter (fun kv => kv.1 = k) kvs)); simpl;
      [reflexivity | now apply lookup_insert_ne].
Qed.

Lemma strokes_comprehension_returns ls ret m :
  strokes_comprehension ls ret = inr m ->
  m = assign ret (strokes_entries ls) /\ forall e, BadLine e ∉ ls.
Proof.
  revert ret. induction ls as [|[|e'|x] ls IH]; intros ret Hl; simpl in Hl.
  - injection Hl as <-. split; [reflexivity|]. intros e He. inversion He.
  - destruct (IH _ Hl) as [-> Hbad]. split; [reflexivity|].
    intros e [He|He]%elem_of_cons; [discriminate | now apply (Hbad e)].
  - discriminate.
  - destruct (IH _ Hl) as [-> Hbad]. split; [reflexivity|].
    intros e [He|He]%elem_of_cons; [discriminate | now apply (Hbad e)].
Qed.

Lemma dictionary_loop_returns ls d m :
  dictionary_loop ls d = inr m ->
  m = assign d (dictionary_entries ls)
  /\ (forall e, BadLine e ∉ ls) /\ (EmptyLine ∉ ls).
Proof.
  revert d. induction ls as [|[|e'|j] ls IH]; intros d Hl; simpl in Hl.
  - injection Hl as <-. split; [reflexivity|].
    split; [intros e He|intros He]; inversion He.
  - discriminate.
  - discriminate.
  - unfold dictionary_entries. simpl.
    destruct (d_pinyin j) as [|p0 ps];
      destruct (IH _ Hl) as (-> & Hbad & Hempty);
      (split; [reflexivity|]; split;
       [intros e [He|He]%elem_of_cons; [discriminate | now apply (Hbad e)]
       |intros [He|He]%elem_of_cons; [discriminate | contradiction]]).
Qed.

(** X3: when [load_strokes_db] returns a store, no line of the file was
    undecodable, the placeholder has no strokes even if the file gives it
    some, and every other character has the strokes of the last line
    that names it, or no entry when no line does.  When it raises, the
    exception is that of an undecodable line of the file. *)
Theorem load_strokes_db_lookup (graphics_txt : list (json_line graphics_entry)) :
  match load_strokes_db graphics_txt with
  | inr db =>
      (forall e, BadLine e ∉ graphics_txt)
      /\ forall C, db !! C
                   = if decide (C = PLACEHOLDER) then Some []
                     else last_assigned C (strokes_entries graphics_txt)
  | inl e => BadLine e ∈ graphics_txt
  end.
Proof.
  unfold load_strokes_db.
  destruct (strokes_comprehension graphics_txt ∅) as [e|ret] eqn:Hl.
  - eapply strokes_comprehension_raises, Hl.
  - apply strokes_comprehension_returns in Hl as [-> Hbad].
    split; [exact Hbad|]. intros C.
    destruct (decide (C = PLACEHOLDER)) as [->|Hne].
    + apply lookup_insert_eq.
    + rewrite lookup_insert_ne by congruence. rewrite lookup_assign.
      destruct (last_assigned C (strokes_entries graphics_txt));
        [reflexivity | apply lookup_empty].
Qed.

(** X4: when [load_dictionary] returns a store, every line of the file
    was decoded, the placeholder has the empty label, and every other
    character has the first pronunciation of the last line that names it
    with a pronunciation; a line with an empty [pinyin] list assigns
    nothing, so it neither creates an entry nor removes an earlier
    one. *)
Theorem load_dictionary_lookup
    (dictionary_txt : list (json_line dictionary_entry)) :
  match load_dictionary dictionary_txt with
  | inr P =>
      (forall e, BadLine e ∉ dictionary_txt)
      /\ (EmptyLine ∉ dictionary_txt)
      /\ forall C, P !! C
                   = if decide (C = PLACEHOLDER) then Some []
                     else last_assigned C (dictionary_entries dictionary_txt)
  | inl e =>
      BadLine e ∈ dictionary_txt
      \/ (e = JSONDecodeError /\ EmptyLine ∈ dictionary_txt)
  end.
Proof.
  unfold load_dictionary.
  destruct (dictionary_loop dictionary_txt ∅) as [e|d] eqn:Hl.
  - eapply dictionary_loop_raises, Hl.
  - apply dictionary_loop_returns in Hl as (-> & Hbad & Hempty).
    split; [exact Hbad|]. split; [exact Hempty|]. intros C.
    destruct (decide (C = PLACEHOLDER)) as [->|Hne].
    + apply lookup_insert_eq.
    + rewrite lookup_insert_ne by congruence. rewrite lookup_assign.
      destruct (last_assigned C (dictionary_entries dictionary_txt));
        [reflexivity | apply lookup_empty].
Qed.

Example load_dictionary_keeps_earlier_pinyin :
  load_dictionary
    [Decoded (DictionaryEntry (py "好") [py "hǎo"]);
     Decoded (DictionaryEntry (py "好") [])]
  = inr (<[py "X" := []]> (<[py "好" := py "hǎo"]> ∅)).
Proof. reflexivity. Qed.

(** ** Invariants of the generator *)

Section Invariants.

Variable rnd : nat -> nat.
Variable chars : list pystr.
Variable strokes_db : gmap pystr (list pystr).
Variable P : gmap pystr pystr.

Abbreviation advance := (advance rnd chars strokes_db P).
Abbreviation for_chars := (for_chars rnd chars strokes_db P).
Abbreviation requests := (requests rnd chars strokes_db P).
Abbreviation gen_images := (gen_images rnd chars strokes_db P).
Abbreviation pull := (pull rnd chars strokes_db P).
Abbreviation curriculum_request := (curriculum_request chars strokes_db P).
Abbreviation frame_ok := (frame_ok chars strokes_db).

Lemma yield_trace_ok rest C strokes i k w r fr' w' :
  rest ⊆ chars -> C ∈ chars -> strokes_db !! C = Some strokes ->
  (i < length strokes)%nat ->
  yield_trace P rest C strokes i k w = Ret (r, fr') w' ->
  curriculum_request r /\ frame_ok fr'.
Proof.
  intros Hrest HC Hdb Hi.
  unfold yield_trace, trace_request, getitem, mbind, M_bind, mret, M_ret, raise.
  destruct (P !! C) as [text|] eqn:HP; [|discriminate].
  intros [= <- <- <-]. split; [|now repeat split].
  exists C, text. repeat split; try assumption. left. eauto.
Qed.

Lemma yield_recall_ok rest C strokes i k w r fr' w' :
  rest ⊆ chars -> C ∈ chars -> strokes_db !! C = Some strokes ->
  (i < length strokes)%nat ->
  yield_recall P rest C strokes i k w = Ret (r, fr') w' ->
  curriculum_request r /\ frame_ok fr'.
Proof.
  intros Hrest HC Hdb Hi.
  unfold yield_recall, recall_request, getitem, mbind, M_bind, mret, M_ret,
    raise.
  destruct (P !! C) as [text|] eqn:HP; [|discriminate].
  intros [= <- <- <-]. split; [|now repeat split].
  exists C, text. repeat split; try assumption. right. left. eauto.
Qed.

Lemma yield_review_ok i w r fr' w' :
  yield_review rnd chars P i w = Ret (r, fr') w' ->
  curriculum_request r /\ frame_ok fr'.
Proof.
  unfold yield_review, review_request, random_choice, getitem,
    mbind, M_bind, mret, M_ret, raise.
  destruct (chars !! (rnd (draws w) mod length chars)%nat) as [C|] eqn:HC;
    [|discriminate].
  destruct (P !! C) as [text|] eqn:HP; [|discriminate].
  intros [= <- <- <-]. split; [|exact I].
  exists C, text. split; [eapply list_elem_of_lookup_2, HC|].
  split; [exact HP|]. right. right. reflexivity.
Qed.

Lemma for_chars_ok rest w r fr' w' :
  rest ⊆ chars -> for_chars rest w = Ret (r, fr') w' ->
  curriculum_request r /\ frame_ok fr'.
Proof.
  induction rest as [|C rest IH]; intros Hrest.
  - rewrite for_chars_nil. apply yield_review_ok.
  - rewrite for_chars_cons.
    assert (HC : C ∈ chars) by (apply Hrest, list_elem_of_here).
    assert (Hrest' : rest ⊆ chars)
      by (intros x Hx; apply Hrest; now apply list_elem_of_further).
    destruct (strokes_db !! C) as [strokes|] eqn:Hdb; [|discriminate].
    destruct (decide (0 < length strokes)%nat); [|now apply IH].
    now apply yield_trace_ok.
Qed.

Lemma advance_ok fr w r fr' w' :
  frame_ok fr -> advance fr w = Ret (r, fr') w' ->
  curriculum_request r /\ frame_ok fr'.
Proof.
  destruct fr as [|rest|rest C strokes i k|rest C strokes i k|i];
    unfold advance.
  - intros _. now apply for_chars_ok.
  - intros Hrest. now apply for_chars_ok.
  - intros (Hrest & HC & Hdb & Hi).
    destruct (decide (k < 3)%nat);
      [now apply yield_trace_ok | now apply yield_recall_ok].
  - intros (Hrest & HC & Hdb & Hi).
    destruct (decide (k < 3)%nat); [now apply yield_recall_ok|].
    destruct (decide (S i < length strokes)%nat);
      [now apply yield_trace_ok | now apply for_chars_ok].
  - intros _. destruct (decide (i < 10)%nat);
      [apply yield_review_ok | now apply for_chars_ok].
Qed.

Lemma requests_ok n :
  forall fr w rs fr' w',
  frame_ok fr -> requests n fr w = Ret (rs, fr') w' ->
  Forall curriculum_request rs /\ frame_ok fr'.
Proof.
  induction n as [|n IH]; intros fr w rs fr' w' Hok Hreq.
  - injection Hreq as <- <- <-. split; [constructor | exact Hok].
  - simpl in Hreq. unfold mbind, M_bind in Hreq.
    destruct (advance fr w) as [[r fr1] w1|] eqn:Hadv; [|discriminate].
    simpl in Hreq.
    destruct (requests n fr1 w1) as [[rs' fr2] w2|] eqn:Hn; [|discriminate].
    injection Hreq as <- <- <-.
    destruct (advance_ok _ _ _ _ _ Hok Hadv) as [Hr Hok1].
    destruct (IH _ _ _ _ _ Hok1 Hn) as [Hrs Hok2].
    split; [now constructor | exact Hok2].
Qed.

(** *** The names of the requests *)

Lemma curriculum_request_name r :
  curriculum_request r -> req_fname r ∈ cell_names strokes_db chars.
Proof.
  intros (C & text & HC & _ & Hr).
  unfold cell_names. apply list_elem_of_In, in_flat_map.
  exists C. split; [now apply list_elem_of_In|]. apply list_elem_of_In.
  unfold char_names.
  destruct Hr as [(strokes & i & Hdb & Hi & ->)
                 |[(strokes & i & Hdb & Hi & ->)| ->]];
    unfold req_fname; cbn [rq_C rq_img_num rq_skip_strokes rq_stop_at].
  - apply elem_of_app. left.
    apply (list_elem_of_fmap_2
             (fun i => cell_fname C (Z.of_nat i) 0 (Z.of_nat i + 1))).
    apply elem_of_seq. rewrite Hdb. simpl. lia.
  - apply elem_of_app. right. apply elem_of_app. left.
    apply (list_elem_of_fmap_2
             (fun i => cell_fname C 0 (Z.of_nat i + 1) 99)).
    apply elem_of_seq. rewrite Hdb. simpl. lia.
  - apply elem_of_app. right. apply elem_of_app. right.
    apply list_elem_of_here.
Qed.

Lemma cell_names_length cs :
  length (cell_names strokes_db cs)
  = list_sum
      (map (fun C => (2 * length (default [] (strokes_db !! C)) + 1)%nat) cs).
Proof.
  induction cs as [|C cs IH]; [reflexivity|].
  unfold cell_names in *. cbn [flat_map map]. unfold list_sum in *.
  cbn [fold_right]. rewrite length_app, IH. unfold char_names.
  rewrite !length_app, !length_map, !length_seq. simpl. lia.
Qed.

Lemma curriculum_request_plain r :
  (forall c, c ∈ chars -> length c = 1%nat) ->
  curriculum_request r -> plain_request r.
Proof.
  intros H1 (C & text & HC & _ & Hr). unfold plain_request.
  destruct Hr as [(strokes & i & _ & _ & ->)
                 |[(strokes & i & _ & _ & ->)| ->]];
    cbn [rq_C rq_img_num rq_skip_strokes rq_stop_at];
    (split; [now apply H1 | lia]).
Qed.

(** Two requests of the curriculum with the same key put the same text
    and the same strokes into the cell. *)
Lemma curriculum_request_same_cell r1 r2 :
  curriculum_request r1 -> curriculum_request r2 ->
  req_key r1 = req_key r2 ->
  rq_add_text r1 = rq_add_text r2 /\ req_paths r1 = req_paths r2.
Proof.
  intros (C1 & t1 & _ & HP1 & Hr1) (C2 & t2 & _ & HP2 & Hr2) Hkey.
  assert (HK : rq_C r1 = rq_C r2 /\ rq_img_num r1 = rq_img_num r2
               /\ rq_skip_strokes r1 = rq_skip_strokes r2
               /\ rq_stop_at r1 = rq_stop_at r2)
    by (unfold req_key in Hkey; injection Hkey; auto).
  clear Hkey.
  destruct Hr1 as [(s1 & i1 & Hdb1 & Hi1 & ->)
                  |[(s1 & i1 & Hdb1 & Hi1 & ->)| ->]];
    destruct Hr2 as [(s2 & i2 & Hdb2 & Hi2 & ->)
                    |[(s2 & i2 & Hdb2 & Hi2 & ->)| ->]];
    cbn [rq_C rq_img_num rq_skip_strokes rq_stop_at rq_add_text] in *;
    destruct HK as (-> & Hi & Hs & He); try lia.
  - assert (i1 = i2) by lia. subst. split; congruence.
  - assert (i1 = i2) by lia. subst. split; congruence.
  - split; [congruence|]. rewrite recall_paths.
    rewrite drop_ge by (rewrite length_take; lia). reflexivity.
  - split; [congruence|]. rewrite recall_paths.
    rewrite drop_ge by (rewrite length_take; lia). reflexivity.
  - split; [congruence | reflexivity].
Qed.

(** *** The list and the files during a run *)

Lemma call_get_image_run written0 r w :
  run_ok written0 w ->
  exists w', call_get_image r w = Ret (req_fname r) w'
    /\ run_ok written0 w' /\ req_fname r ∈ images w'
    /\ (forall f, f ∈ images w -> f ∈ images w')
    /\ (forall f, f ∈ images w' -> f ∈ images w \/ f = req_fname r)
    /\ draws w' = draws w /\ fi w' = fi w.
Proof.
  intros (Hnd & new & Hw & Hnew).
  destruct (decide (req_fname r ∈ images w)) as [Hin|Hin].
  - exists w. rewrite call_get_image_hit by exact Hin.
    repeat split; auto. exists new. auto.
  - exists (cache_add r w). rewrite call_get_image_miss by exact Hin.
    split; [reflexivity|]. unfold cache_add. cbn [images written draws fi].
    split; [split|].
    + apply NoDup_app. repeat split; auto.
      * intros x Hx ->%list_elem_of_singleton. contradiction.
      * apply NoDup_singleton.
    + exists (new ++ [(req_fname r,
                       CellFile (rq_add_text r) (req_paths r))]).
      rewrite Hw, <- app_assoc, map_app, Hnew. auto.
    + repeat split.
      * apply elem_of_app. right. apply list_elem_of_here.
      * intros f Hf. apply elem_of_app. now left.
      * intros f [Hf | ->%list_elem_of_singleton]%elem_of_app; auto.
Qed.

Lemma gen_images_run written0 fr w fname fr' w' :
  frame_ok fr -> run_ok written0 w ->
  gen_images fr w = Ret (fname, fr') w' ->
  frame_ok fr' /\ run_ok written0 w'
  /\ fname ∈ cell_names strokes_db chars /\ fname ∈ images w'
  /\ (forall f, f ∈ images w -> f ∈ images w')
  /\ (forall f, f ∈ images w' -> f ∈ images w \/ f = fname)
  /\ fi w' = fi w.
Proof.
  intros Hfr Hrun. rewrite gen_images_eq.
  destruct (advance fr w) as [[r fr1] w1|] eqn:Hadv; [|discriminate].
  destruct (advance_ok _ _ _ _ _ Hfr Hadv) as [Hr Hfr1].
  apply advance_returns_world in Hadv.
  assert (Hrun1 : run_ok written0 w1) by (rewrite Hadv; exact Hrun).
  destruct (call_get_image_run written0 r w1 Hrun1)
    as (w2 & Hc & Hrun2 & Hin & Hsub & Hsup & _ & Hfi).
  rewrite Hc. intros [= <- <- <-].
  assert (Him : images w1 = images w) by (rewrite Hadv; reflexivity).
  assert (Hf1 : fi w1 = fi w) by (rewrite Hadv; reflexivity).
  rewrite Him in Hsub, Hsup.
  split; [exact Hfr1|]. split; [exact Hrun2|].
  split; [now apply curriculum_request_name|].
  split; [exact Hin|]. split; [exact Hsub|]. split; [exact Hsup|].
  congruence.
Qed.

Lemma pull_run written0 n :
  forall fr w fnames fr' w',
  frame_ok fr -> run_ok written0 w ->
  pull n fr w = Ret (fnames, fr') w' ->
  frame_ok fr' /\ run_ok written0 w'
  /\ (forall f, f ∈ fnames -> f ∈ cell_names strokes_db chars)
  /\ (forall f, f ∈ fnames -> f ∈ images w')
  /\ (forall f, f ∈ images w -> f ∈ images w')
  /\ (forall f, f ∈ images w' -> f ∈ images w \/ f ∈ fnames).
Proof.
  induction n as [|n IH]; intros fr w fnames fr' w' Hfr Hrun Hp.
  - injection Hp as <- <- <-.
    split; [exact Hfr|]. split; [exact Hrun|].
    split; [intros f Hf; inversion Hf|].
    split; [intros f Hf; inversion Hf|]. auto.
  - rewrite pull_S in Hp.
    destruct (gen_images fr w) as [[fname fr1] w1|] eqn:Hg; [|discriminate].
    destruct (pull n fr1 w1) as [[l fr2] w2|] eqn:Hn; [|discriminate].
    injection Hp as <- <- <-.
    destruct (gen_images_run _ _ _ _ _ _ Hfr Hrun Hg)
      as (Hfr1 & Hrun1 & Hname & Hin1 & Hsub1 & Hsup1 & _).
    destruct (IH _ _ _ _ _ Hfr1 Hrun1 Hn)
      as (Hfr2 & Hrun2 & Hnames & Hin2 & Hsub2 & Hsup2).
    split; [exact Hfr2|]. split; [exact Hrun2|].
    split; [|split; [|split]].
    + intros f [->|Hf]%elem_of_cons; auto.
    + intros f [->|Hf]%elem_of_cons; auto.
    + auto.
    + intros f Hf. destruct (Hsup2 f Hf) as [Hf1|Hf1].
      * destruct (Hsup1 f Hf1) as [?| ->]; [now left|].
        right. apply list_elem_of_here.
      * right. now apply list_elem_of_further.
Qed.

(** X5: for target characters of one code point, two requests of the
    curriculum that get the same file name have the same key, and put
    the same text and the same strokes into the cell: the cache never
    answers a request of the generator with the cell of another one. *)
Theorem curriculum_cache_sound n w rs fr w' :
  (forall c, c ∈ chars -> length c = 1%nat) ->
  requests n AtWhile w = Ret (rs, fr) w' ->
  forall r1 r2, r1 ∈ rs -> r2 ∈ rs ->
    req_fname r1 = req_fname r2 ->
    req_key r1 = req_key r2
    /\ rq_add_text r1 = rq_add_text r2 /\ req_paths r1 = req_paths r2.
Proof.
  intros H1 Hreq r1 r2 Hr1 Hr2 Hname.
  destruct (requests_ok n AtWhile w rs fr w' I Hreq) as [Hrs _].
  rewrite Forall_forall in Hrs.
  pose proof (Hrs r1 Hr1) as Hc1. pose proof (Hrs r2 Hr2) as Hc2.
  assert (Hkey : req_key r1 = req_key r2).
  { destruct (curriculum_request_plain r1 H1 Hc1) as (? & ? & ? & ?).
    destruct (curriculum_request_plain r2 H1 Hc2) as (? & ? & ? & ?).
    unfold req_fname in Hname.
    apply cell_fname_inj in Hname as (? & ? & ? & ?); try assumption.
    unfold req_key. congruence. }
  split; [exact Hkey|]. now apply curriculum_request_same_cell.
Qed.

End Invariants.

(** ** The page and the list that [gen_svg] returns *)

Lemma slot_inj (cols size : Z) (k1 k2 : nat) :
  cols <> 0 -> size <> 0 ->
  (Z.of_nat k1 mod cols * size, (Z.of_nat k1 / cols + 1) * size)
  = (Z.of_nat k2 mod cols * size, (Z.of_nat k2 / cols + 1) * size) ->
  k1 = k2.
Proof.
  intros Hc Hs [= Hx Hy].
  apply Z.mul_cancel_r in Hx, Hy; try assumption.
  pose proof (Z.div_mod (Z.of_nat k1) cols Hc).
  pose proof (Z.div_mod (Z.of_nat k2) cols Hc).
  assert (Z.of_nat k1 / cols = Z.of_nat k2 / cols) by lia. nia.
Qed.

Lemma placements_nodup (size : Z) (fnames : list pystr) :
  size <> 0 ->
  Z.of_nat (length fnames) <= 200 / size * (300 / size - 1) ->
  NoDup (map origin (placements (200 / size) size fnames)).
Proof.
  intros Hs Hlen.
  change (placements (200 / size) size fnames)
    with (placements_from 0 (200 / size) size fnames).
  rewrite origin_placements_from.
  apply NoDup_fmap_2_strong; [|apply NoDup_seq].
  intros k1 k2 Hk1 _. apply slot_inj; [|exact Hs].
  intros Hc. rewrite Hc in Hlen. apply elem_of_seq in Hk1. simpl in Hlen. lia.
Qed.

Lemma placements_in_page (size : Z) (fnames : list pystr) :
  0 < size ->
  Z.of_nat (length fnames) <= 200 / size * (300 / size - 1) ->
  Forall (in_page size) (placements (200 / size) size fnames).
Proof.
  intros Hs Hlen. apply Forall_forall. intros c Hc.
  apply elem_of_lookup_imap in Hc as (k & f & -> & Hk).
  apply lookup_lt_Some in Hk. unfold in_page. cbn [fst snd PAGE_SIZE].
  pose proof (Z.div_pos 200 size ltac:(lia) Hs) as Hc0.
  assert (Hcols : 0 < 200 / size).
  { destruct (Z.eq_dec (200 / size) 0) as [Hz|Hz]; [|lia].
    rewrite Hz in Hlen. simpl in Hlen. lia. }
  pose proof (Z.mod_pos_bound (Z.of_nat k) (200 / size) Hcols) as Hmod.
  pose proof (Z.mul_div_le 200 size Hs) as H200.
  pose proof (Z.mul_div_le 300 size Hs) as H300.
  assert (Hrow : Z.of_nat k / (200 / size) < 300 / size - 1).
  { apply Z.div_lt_upper_bound; [exact Hcols | lia]. }
  pose proof (Z.div_pos (Z.of_nat k) (200 / size) ltac:(lia) Hcols) as Hr0.
  repeat split; try reflexivity; nia.
Qed.

Lemma load_strokes_db_placeholder graphics_txt db :
  load_strokes_db graphics_txt = inr db -> db !! PLACEHOLDER = Some [].
Proof.
  unfold load_strokes_db.
  destruct (strokes_comprehension graphics_txt ∅); [discriminate|].
  intros [= <-]. apply lookup_insert_eq.
Qed.

Lemma load_dictionary_placeholder dictionary_txt P :
  load_dictionary dictionary_txt = inr P -> P !! PLACEHOLDER = Some [].
Proof.
  unfold load_dictionary.
  destruct (dictionary_loop dictionary_txt ∅); [discriminate|].
  intros [= <-]. apply lookup_insert_eq.
Qed.

Section Pages.

Variable rnd : nat -> nat.

(** A page that is returned: what was loaded and pulled for it. *)
Lemma gen_svg_page dictionary_txt chars strokes_db size w imgs w' :
  gen_svg rnd dictionary_txt chars strokes_db size w = Ret imgs w' ->
  exists P fnames fr w2,
    load_dictionary dictionary_txt = inr P /\ size <> 0
    /\ pull rnd chars strokes_db P
         (Z.to_nat (200 / size * (300 / size - 1))) AtWhile
         (before_loop P chars w) = Ret (fnames, fr) w2
    /\ Z.of_nat (length fnames) = 200 / size * (300 / size - 1)
    /\ imgs = images w2
    /\ w' = with_fi (fi (before_loop P chars w)
                     ++ placements (200 / size) size fnames
                     ++ [FOOTER_SINGLE]) w2.
Proof.
  intros Hret.
  destruct (gen_svg_returns_inv rnd _ _ _ _ _ _ _ Hret)
    as (P & Hload & Hs & HP).
  pose proof (gen_svg_pull rnd dictionary_txt P chars strokes_db size w
                Hload Hs HP) as Hg.
  destruct (pull rnd chars strokes_db P _ AtWhile (before_loop P chars w))
    as [[fnames fr] w2|e w2] eqn:Hp.
  2: { destruct Hg as [f1 Hg]. rewrite Hg in Hret. discriminate. }
  rewrite Hg in Hret. injection Hret as <- <-.
  exists P, fnames, fr, w2. apply pull_length in Hp as Hlen.
  split; [exact Hload|]. split; [exact Hs|]. split; [exact Hp|].
  split; [rewrite Hlen, Z2Nat.id by (apply slots_nonneg, Hs); reflexivity|].
  split; reflexivity.
Qed.

Lemma before_loop_run_ok P chars w : run_ok (written w) (before_loop P chars w).
Proof.
  split; [apply NoDup_nil_2|]. exists []. split; [|reflexivity].
  simpl. now rewrite app_nil_r.
Qed.

Lemma gen_svg_listing dictionary_txt chars strokes_db size w imgs w' :
  gen_svg rnd dictionary_txt chars strokes_db size w = Ret imgs w' ->
  NoDup imgs /\ images w' = imgs
  /\ (exists new, written w' = written w ++ new /\ map fst new = imgs)
  /\ exists P fnames,
       load_dictionary dictionary_txt = inr P
       /\ fi w' = fi (before_loop P chars w)
                  ++ placements (200 / size) size fnames ++ [FOOTER_SINGLE]
       /\ forall f, f ∈ imgs <-> f ∈ fnames.
Proof.
  intros Hret.
  destruct (gen_svg_page _ _ _ _ _ _ _ Hret)
    as (P & fnames & fr & w2 & Hload & Hs & Hp & _ & -> & ->).
  destruct (pull_run rnd chars strokes_db P (written w) _ AtWhile _ _ _ _ I
              (before_loop_run_ok P chars w) Hp)
    as (_ & (Hnd & new & Hw & Hnew) & _ & Hin & _ & Hsup).
  split; [exact Hnd|]. split; [reflexivity|].
  split; [exists new; auto|].
  exists P, fnames. split; [exact Hload|]. split; [reflexivity|].
  intros f. split; [|apply Hin].
  intros Hf. destruct (Hsup f Hf) as [Hf0|Hf0]; [inversion Hf0 | exact Hf0].
Qed.


(** X7: however many slots the page has, [gen_svg] makes at most
    [2 n + 1] files for a target character of [n] strokes. *)
Theorem gen_svg_files_bounded dictionary_txt chars strokes_db size w imgs w' :
  gen_svg rnd dictionary_txt chars strokes_db size w = Ret imgs w' ->
  (length imgs
   <= list_sum
        (map (fun C => 2 * length (default [] (strokes_db !! C)) + 1) chars))%nat.
Proof.
  intros Hret.
  destruct (gen_svg_page _ _ _ _ _ _ _ Hret)
    as (P & fnames & fr & w2 & Hload & Hs & Hp & _ & -> & ->).
  destruct (pull_run rnd chars strokes_db P (written w) _ AtWhile _ _ _ _ I
              (before_loop_run_ok P chars w) Hp)
    as (_ & (Hnd & _) & Hnames & _ & _ & Hsup).
  rewrite <- cell_names_length. apply submseteq_length, NoDup_submseteq.
  - exact Hnd.
  - intros f Hf. destruct (Hsup f Hf) as [Hf0|Hf0];
      [inversion Hf0 | now apply Hnames].
Qed.

(** X8: on a page that [gen_svg] returns no two image elements have the
    same place, and when the cell size is positive every image element
    is a square of that size that lies on the 200 by 300 page, under the
    row of the header. *)
Theorem gen_svg_cells_on_page dictionary_txt chars strokes_db size w imgs w' :
  gen_svg rnd dictionary_txt chars strokes_db size w = Ret imgs w' ->
  exists P fnames,
    load_dictionary dictionary_txt = inr P
    /\ fi w' = fi (before_loop P chars w)
               ++ placements (200 / size) size fnames ++ [FOOTER_SINGLE]
    /\ NoDup (map origin (placements (200 / size) size fnames))
    /\ (0 < size ->
        Forall (in_page size) (placements (200 / size) size fnames)).
Proof.
  intros Hret.
  destruct (gen_svg_page _ _ _ _ _ _ _ Hret)
    as (P & fnames & fr & w2 & Hload & Hs & Hp & Hlen & -> & ->).
  exists P, fnames. split; [exact Hload|]. split; [reflexivity|].
  split; [apply placements_nodup; [exact Hs | lia]|].
  intros Hpos. apply placements_in_page; [exact Hpos | lia].
Qed.

(** X9: a negative cell size is not refused.  A page that [gen_svg]
    returns for it has at least two image elements, and the first one is
    placed at [y = size], above the page. *)
Theorem gen_svg_negative_size dictionary_txt chars strokes_db size w imgs w' :
  size < 0 ->
  gen_svg rnd dictionary_txt chars strokes_db size w = Ret imgs w' ->
  exists P fnames f,
    load_dictionary dictionary_txt = inr P
    /\ fi w' = fi (before_loop P chars w)
               ++ placements (200 / size) size fnames ++ [FOOTER_SINGLE]
    /\ (2 <= length fnames)%nat
    /\ head (placements (200 / size) size fnames)
       = Some (IMAGE_TPL 0 size size size f).
Proof.
  intros Hneg Hret.
  destruct (gen_svg_page _ _ _ _ _ _ _ Hret)
    as (P & fnames & fr & w2 & Hload & Hs & Hp & Hlen & -> & ->).
  assert (Hslots : 2 <= 200 / size * (300 / size - 1)).
  { assert (Hcols : 200 / size <= -1).
    { pose proof (Z.div_mod 200 size Hs).
      pose proof (Z.mod_neg_bound 200 size Hneg). nia. }
    assert (Hrows : 300 / size <= -1).
    { pose proof (Z.div_mod 300 size Hs).
      pose proof (Z.mod_neg_bound 300 size Hneg). nia. }
    nia. }
  destruct fnames as [|f fnames]; [simpl in Hlen; lia|].
  exists P, (f :: fnames), f. split; [exact Hload|]. split; [reflexivity|].
  split; [lia|]. unfold placements. cbn [imap head].
  change (Z.of_nat 0) with 0. rewrite Z.mod_0_l, Z.div_0_l by nia.
  do 2 f_equal. lia.
Qed.

End Pages.

(** ** The exceptions of [gen_svg] *)

Section Exceptions.

Variable rnd : nat -> nat.
Variable chars : list pystr.
Variable strokes_db : gmap pystr (list pystr).
Variable P : gmap pystr pystr.

Abbreviation generator_fault := (generator_fault chars strokes_db P).

Lemma yield_trace_raises rest C strokes i k w e w' :
  C ∈ chars -> yield_trace P rest C strokes i k w = Raise e w' ->
  generator_fault e.
Proof.
  intros HC.
  unfold yield_trace, trace_request, getitem, mbind, M_bind, mret, M_ret, raise.
  destruct (P !! C) eqn:HP; [discriminate|]. intros [= <- _].
  right. split; [reflexivity|]. exists C. auto.
Qed.

Lemma yield_recall_raises rest C strokes i k w e w' :
  C ∈ chars -> yield_recall P rest C strokes i k w = Raise e w' ->
  generator_fault e.
Proof.
  intros HC.
  unfold yield_recall, recall_request, getitem, mbind, M_bind, mret, M_ret,
    raise.
  destruct (P !! C) eqn:HP; [discriminate|]. intros [= <- _].
  right. split; [reflexivity|]. exists C. auto.
Qed.

Lemma yield_review_raises i w e w' :
  yield_review rnd chars P i w = Raise e w' -> generator_fault e.
Proof.
  unfold yield_review, review_request, random_choice, getitem,
    mbind, M_bind, mret, M_ret, raise.
  destruct (chars !! (rnd (draws w) mod length chars)%nat) as [C|] eqn:HC.
  - destruct (P !! C) eqn:HP; [discriminate|]. intros [= <- _].
    right. split; [reflexivity|]. exists C.
    split; [eapply list_elem_of_lookup_2, HC | auto].
  - intros [= <- _]. left. split; [reflexivity|].
    destruct chars as [|c cs]; [reflexivity|].
    apply lookup_ge_None in HC.
    pose proof (Nat.mod_upper_bound (rnd (draws w)) (length (c :: cs))
                  ltac:(simpl; lia)). lia.
Qed.

Lemma for_chars_raises rest w e w' :
  rest ⊆ chars -> for_chars rnd chars strokes_db P rest w = Raise e w' ->
  generator_fault e.
Proof.
  induction rest as [|C rest IH]; intros Hrest.
  - rewrite for_chars_nil. apply yield_review_raises.
  - rewrite for_chars_cons.
    assert (HC : C ∈ chars) by (apply Hrest, list_elem_of_here).
    assert (Hrest' : rest ⊆ chars)
      by (intros x Hx; apply Hrest; now apply list_elem_of_further).
    destruct (strokes_db !! C) as [strokes|] eqn:Hdb.
    + destruct (decide (0 < length strokes)%nat); [|now apply IH].
      now apply yield_trace_raises.
    + intros [= <- _]. right. split; [reflexivity|]. exists C. auto.
Qed.

Lemma advance_raises fr w e w' :
  frame_ok chars strokes_db fr ->
  advance rnd chars strokes_db P fr w = Raise e w' -> generator_fault e.
Proof.
  destruct fr as [|rest|rest C strokes i k|rest C strokes i k|i];
    unfold advance.
  - intros _. now apply for_chars_raises.
  - intros Hrest. now apply for_chars_raises.
  - intros (Hrest & HC & Hdb & Hi).
    destruct (decide (k < 3)%nat);
      [now apply yield_trace_raises | now apply yield_recall_raises].
  - intros (Hrest & HC & Hdb & Hi).
    destruct (decide (k < 3)%nat); [now apply yield_recall_raises|].
    destruct (decide (S i < length strokes)%nat);
      [now apply yield_trace_raises | now apply for_chars_raises].
  - intros _. destruct (decide (i < 10)%nat);
      [apply yield_review_raises | now apply for_chars_raises].
Qed.

Lemma pull_raises n :
  forall fr w e w',
  frame_ok chars strokes_db fr ->
  pull rnd chars strokes_db P n fr w = Raise e w' -> generator_fault e.
Proof.
  induction n as [|n IH]; intros fr w e w' Hfr Hp; [discriminate|].
  rewrite pull_S, gen_images_eq in Hp.
  destruct (advance rnd chars strokes_db P fr w) as [[r fr1] w1|e1 w1] eqn:Hadv.
  - destruct (advance_ok _ _ _ _ _ _ _ _ _ Hfr Hadv) as [_ Hfr1].
    destruct (call_get_image_returns r w1) as (w2 & Hc & _). rewrite Hc in Hp.
    destruct (pull rnd chars strokes_db P n fr1 w2) as [[l fr2] w3|e2 w3] eqn:Hn;
      [discriminate|].
    injection Hp as <- _. eapply IH; eauto.
  - injection Hp as <- _. eapply advance_raises; eauto.
Qed.

End Exceptions.

Section Callers.

Variable rnd : nat -> nat.

Lemma header_items_missing (P : gmap pystr pystr) (cs : list pystr) :
  (forall c, c ∈ cs -> is_Some (P !! c))
  \/ exists c, c ∈ cs /\ P !! c = None.
Proof.
  induction cs as [|c0 cs IH].
  - left. intros c Hc. inversion Hc.
  - destruct (P !! c0) as [p|] eqn:Hp.
    + destruct IH as [IH|(c & Hc & Hn)].
      * left. intros c [->|Hc]%elem_of_cons; [eauto | auto].
      * right. exists c. split; [now apply list_elem_of_further | exact Hn].
    + right. exists c0. split; [apply list_elem_of_here | exact Hp].
Qed.

Lemma gen_svg_faults dictionary_txt chars strokes_db size w e w' :
  gen_svg rnd dictionary_txt chars strokes_db size w = Raise e w' ->
  load_dictionary dictionary_txt = inl e
  \/ exists P,
       load_dictionary dictionary_txt = inr P
       /\ ((e = ZeroDivisionError /\ size = 0)
           \/ (e = KeyError
               /\ exists c, c ∈ chars
                            /\ (strokes_db !! c = None \/ P !! c = None))
           \/ (e = IndexError /\ chars = [])).
Proof.
  intros Hraise.
  destruct (load_dictionary dictionary_txt) as [e0|P] eqn:Hload.
  - left. unfold gen_svg in Hraise. rewrite Hload in Hraise.
    injection Hraise as <- _. reflexivity.
  - right. exists P. split; [reflexivity|].
    destruct (decide (size = 0)) as [->|Hs].
    + left. unfold gen_svg in Hraise. rewrite Hload in Hraise.
      injection Hraise as <- _. auto.
    + right.
      destruct (header_items_missing P chars) as [HP|(c & Hc & Hn)].
      * pose proof (gen_svg_pull rnd dictionary_txt P chars strokes_db size w
                      Hload Hs HP) as Hg.
        destruct (pull rnd chars strokes_db P _ AtWhile
                    (before_loop P chars w)) as [[fnames fr] w2|e2 w2] eqn:Hp.
        { rewrite Hg in Hraise. discriminate. }
        destruct Hg as [f1 Hg]. rewrite Hg in Hraise. injection Hraise as <- _.
        apply (pull_raises rnd chars strokes_db P _ AtWhile _ _ _ I) in Hp.
        destruct Hp as [[-> ->]|[-> Hc]]; auto.
      * left. split; [|eauto].
        unfold gen_svg in Hraise. rewrite Hload in Hraise. simpl lift in Hraise.
        unfold mbind, M_bind, mret, M_ret, floordiv in Hraise.
        destruct (decide (size = 0)); [contradiction|].
        unfold mret, M_ret, fi_write at 1 in Hraise.
        cbv zeta in Hraise. cbn beta iota in Hraise.
        rewrite (header_text_raises P chars c) in Hraise by assumption.
        injection Hraise as <- _. reflexivity.
Qed.


Lemma gen_chars_chars form_chars :
  str_chars (gen_chars form_chars) <> []
  /\ forall c, c ∈ str_chars (gen_chars form_chars) -> length c = 1%nat.
Proof.
  split.
  - destruct form_chars as [[|c s]|]; discriminate.
  - intros c (x & -> & _)%list_elem_of_fmap. reflexivity.
Qed.

(** X13: the targets that [gen] passes on are never empty and are
    characters of one code point each, so for them, with a dictionary
    that loads, [gen_svg] never ends in the [IndexError] of
    [random.choice]. *)
Theorem gen_targets_not_empty dictionary_txt P strokes_db size w form_chars :
  load_dictionary dictionary_txt = inr P ->
  str_chars (gen_chars form_chars) <> []
  /\ (forall c, c ∈ str_chars (gen_chars form_chars) -> length c = 1%nat)
  /\ forall w',
       gen_svg rnd dictionary_txt (str_chars (gen_chars form_chars))
         strokes_db size w <> Raise IndexError w'.
Proof.
  intros HP. destruct (gen_chars_chars form_chars) as [Hne H1].
  split; [exact Hne|]. split; [exact H1|]. intros w' Hraise.
  destruct (gen_svg_faults _ _ _ _ _ _ _ Hraise)
    as [Hl|(P' & _ & [[He _]|[[He _]|[_ Hnil]]])];
    try discriminate; [congruence | contradiction].
Qed.

(** X11: the request that [gen] makes when the form names no character.
    The target is then the placeholder, and whatever the two data files
    hold, if they load, and whatever the size, if it is not zero,
    [gen_svg] returns a page; every cell of it is the one blank file
    [X0-99-99.svg]. *)
Theorem gen_default_request graphics_txt dictionary_txt strokes_db P size w
    form_chars :
  load_strokes_db graphics_txt = inr strokes_db ->
  load_dictionary dictionary_txt = inr P ->
  size <> 0 ->
  form_chars = None \/ form_chars = Some [] ->
  exists imgs w',
    gen_svg rnd dictionary_txt (str_chars (gen_chars form_chars)) strokes_db
      size w = Ret imgs w'
    /\ forall f, f ∈ imgs -> f = py "X0-99-99.svg".
Proof.
  intros Hdb HP Hs Hform.
  assert (Hchars : str_chars (gen_chars form_chars) = [PLACEHOLDER])
    by (destruct Hform as [-> | ->]; reflexivity).
  rewrite Hchars.
  apply load_strokes_db_placeholder in Hdb as HdbX.
  apply load_dictionary_placeholder in HP as HPX.
  assert (Hk : all_known [PLACEHOLDER] strokes_db P).
  { split; [discriminate|]. repeat constructor; eauto. }
  destruct (gen_svg_returns rnd dictionary_txt P [PLACEHOLDER] strokes_db
              size w HP Hs Hk) as (fr & w2 & Hp & Hg).
  eexists _, _. split; [exact Hg|].
  destruct (pull_run rnd [PLACEHOLDER] strokes_db P (written w) _ AtWhile
              _ _ _ _ I (before_loop_run_ok P [PLACEHOLDER] w) Hp)
    as (_ & _ & Hnames & _ & _ & Hsup).
  intros f Hf. destruct (Hsup f Hf) as [Hf0|Hf0]; [inversion Hf0|].
  apply Hnames in Hf0. unfold cell_names, char_names in Hf0.
  cbn [flat_map] in Hf0. rewrite HdbX in Hf0. simpl in Hf0.
  apply list_elem_of_singleton in Hf0. exact Hf0.
Qed.

End Callers.

(** ** [main] *)

Section MainProperties.

Variable rnd : nat -> nat.
Variable cwd : pystr.
Variable os_fails : os_action -> option exn.

Ltac main_quiet :=
  cbn [mr_actions mr_value];
  split;
  [ intros ? Hin; rewrite ?elem_of_cons, elem_of_nil in Hin;
    destruct_or?; simplify_eq
  | split;
    [ intros ? Hin; rewrite ?elem_of_cons, elem_of_nil in Hin;
      destruct_or?; simplify_eq
    | first [discriminate | intros _ [=] | intros _ _ [=]] ] ].

(** X12: what [main] removes.  Whatever the environment does, the loop
    over [set(images)] is reached only when neither [no_pdf] nor
    [no_delete] is set, [gen_svg] has returned and [gen_pdf] has
    succeeded, and the files it unlinks are exactly the cell files
    written during the call; the only other file unlinked is the page
    file, after that loop.  So a call that ends in an exception of
    [gen_svg], and a call with [no_pdf], remove nothing. *)
Theorem main_unlinks graphics_txt dictionary_txt C size no_delete no_pdf w :
  (forall fnames,
     UNLINK_EACH fnames
       ∈ mr_actions (main rnd cwd os_fails graphics_txt dictionary_txt C
                       size no_delete no_pdf w) ->
     no_pdf = false /\ no_delete = false
     /\ os_fails (GEN_PDF ((cwd ++ py "/" ++ C) ++ py ".svg")
                          ((cwd ++ py "/" ++ C) ++ py ".pdf")) = None
     /\ exists strokes_db imgs w' new,
          load_strokes_db graphics_txt = inr strokes_db
          /\ gen_svg rnd dictionary_txt (str_chars C) strokes_db size
               (with_fi [] w) = Ret imgs w'
          /\ written w' = written w ++ new
          /\ fnames = list_to_set (map fst new))
  /\ (forall path,
        UNLINK path
          ∈ mr_actions (main rnd cwd os_fails graphics_txt dictionary_txt C
                          size no_delete no_pdf w) ->
        path = C ++ py ".svg"
        /\ exists fnames pre,
             mr_actions (main rnd cwd os_fails graphics_txt dictionary_txt C
                           size no_delete no_pdf w)
             = pre ++ [UNLINK_EACH fnames; UNLINK path])
  /\ (mr_value (main rnd cwd os_fails graphics_txt dictionary_txt C
                  size no_delete no_pdf w) = inr tt ->
      no_pdf = false -> no_delete = false ->
      exists fnames,
        mr_actions (main rnd cwd os_fails graphics_txt dictionary_txt C
                      size no_delete no_pdf w)
        = [OPEN_W (C ++ py ".svg");
           GEN_PDF ((cwd ++ py "/" ++ C) ++ py ".svg")
                   ((cwd ++ py "/" ++ C) ++ py ".pdf");
           UNLINK_EACH fnames; UNLINK (C ++ py ".svg")]).
Proof.
  unfold main.
  destruct (load_strokes_db graphics_txt) as [e|strokes_db] eqn:Hdb;
    [main_quiet|].
  cbv zeta.
  destruct (os_fails (OPEN_W (C ++ py ".svg"))) as [e|]; [main_quiet|].
  destruct (gen_svg rnd dictionary_txt (str_chars C) strokes_db size
              (with_fi [] w)) as [imgs w'|e w'] eqn:Hg; [|main_quiet].
  destruct (gen_svg_listing rnd _ _ _ _ _ _ _ Hg)
    as (_ & _ & (new & Hw & Hnew) & _).
  change (written (with_fi [] w)) with (written w) in Hw.
  destruct no_pdf; [main_quiet|].
  destruct (os_fails (GEN_PDF _ _)) as [e|] eqn:Hpdf; [main_quiet|].
  destruct no_delete; [main_quiet|].
  assert (Heach : forall fnames (acts : list os_action),
            UNLINK_EACH fnames ∈ acts ->
            (forall a, a ∈ acts -> a = UNLINK_EACH (list_to_set imgs)
                                   \/ forall s, a <> UNLINK_EACH s) ->
            false = false /\ false = false /\ @None exn = None
            /\ exists strokes_db0 imgs0 w0' new0,
                 @inr exn _ strokes_db = inr strokes_db0
                 /\ gen_svg rnd dictionary_txt (str_chars C) strokes_db0 size
                      (with_fi [] w) = Ret imgs0 w0'
                 /\ written w0' = written w ++ new0
                 /\ fnames = list_to_set (map fst new0)).
  { intros fnames acts Hin Hacts. repeat split.
    exists strokes_db, imgs, w', new.
    split; [reflexivity|]. split; [exact Hg|]. split; [exact Hw|].
    destruct (Hacts _ Hin) as [[= ->]|Hne]; [now rewrite Hnew|].
    now destruct (Hne fnames). }
  destruct (os_fails (UNLINK_EACH (list_to_set imgs))) as [e|];
    [|destruct (os_fails (UNLINK (C ++ py ".svg"))) as [e|]];
    cbn [mr_actions mr_value]; (split; [|split]).
  - intros fnames Hin. apply (Heach _ _ Hin). intros a Ha.
    rewrite !elem_of_cons, elem_of_nil in Ha.
    destruct_or!; subst; auto; right; discriminate.
  - intros path Hin. rewrite !elem_of_cons, elem_of_nil in Hin.
    destruct_or!; simplify_eq.
  - discriminate.
  - intros fnames Hin. apply (Heach _ _ Hin). intros a Ha.
    rewrite !elem_of_cons, elem_of_nil in Ha.
    destruct_or!; subst; auto; right; discriminate.
  - intros path Hin. rewrite !elem_of_cons, elem_of_nil in Hin.
    destruct_or!; simplify_eq. split; [reflexivity|].
    eexists _, [_; _]. reflexivity.
  - discriminate.
  - intros fnames Hin. apply (Heach _ _ Hin). intros a Ha.
    rewrite !elem_of_cons, elem_of_nil in Ha.
    destruct_or!; subst; auto; right; discriminate.
  - intros path Hin. rewrite !elem_of_cons, elem_of_nil in Hin.
    destruct_or!; simplify_eq. split; [reflexivity|].
    eexists _, [_; _]. reflexivity.
  - intros _ _ _. eexists. reflexivity.
Qed.

End MainProperties.

(** ** The small run, again *)

Ltac returned Hg := vm_compute in Hg; discriminate Hg.

Lemma curriculum_cache_sound_witness :
  (forall c, c ∈ nihao -> length c = 1%nat)
  /\ exists rs fr w',
       requests rnd0 nihao nihao_strokes_db nihao_P 28 AtWhile w0
       = Ret (rs, fr) w'
       /\ forall r1 r2, r1 ∈ rs -> r2 ∈ rs ->
            req_fname r1 = req_fname r2 -> req_key r1 = req_key r2.
Proof.
  assert (H1 : forall c, c ∈ nihao -> length c = 1%nat).
  { intros c Hc. repeat (apply elem_of_cons in Hc as [->|Hc]);
      [reflexivity .. | inversion Hc]. }
  split; [exact H1|].
  destruct (requests rnd0 nihao nihao_strokes_db nihao_P 28 AtWhile w0)
    as [[rs fr] w'|e w'] eqn:Hreq; [|returned Hreq].
  exists rs, fr, w'. split; [reflexivity|]. intros r1 r2 Hr1 Hr2 Hname.
  apply (curriculum_cache_sound rnd0 nihao nihao_strokes_db nihao_P
           28 w0 rs fr w' H1 Hreq r1 r2 Hr1 Hr2 Hname).
Defined.


Lemma gen_svg_files_bounded_witness :
  exists imgs w',
    gen_svg rnd0 nihao_dictionary_txt nihao nihao_strokes_db 10 w0
    = Ret imgs w'
    /\ (length imgs <= 8)%nat.
Proof.
  destruct (gen_svg rnd0 nihao_dictionary_txt nihao nihao_strokes_db 10 w0)
    as [imgs w'|e w'] eqn:Hg; [|returned Hg].
  exists imgs, w'. split; [reflexivity|].
  apply (gen_svg_files_bounded rnd0 _ _ _ _ _ _ _ Hg).
Defined.

Lemma gen_svg_cells_on_page_witness :
  exists imgs w' P fnames,
    gen_svg rnd0 nihao_dictionary_txt nihao nihao_strokes_db 100 w0
    = Ret imgs w'
    /\ Forall (in_page 100) (placements (200 / 100) 100 fnames)
    /\ fi w' = fi (before_loop P nihao w0)
               ++ placements (200 / 100) 100 fnames ++ [FOOTER_SINGLE].
Proof.
  destruct (gen_svg rnd0 nihao_dictionary_txt nihao nihao_strokes_db 100 w0)
    as [imgs w'|e w'] eqn:Hg; [|returned Hg].
  destruct (gen_svg_cells_on_page rnd0 _ _ _ _ _ _ _ Hg)
    as (P & fnames & _ & Hfi & _ & Hin).
  exists imgs, w', P, fnames. split; [reflexivity|].
  split; [apply Hin; lia | exact Hfi].
Defined.

Lemma gen_svg_negative_size_witness :
  -100 < 0
  /\ exists imgs w' fnames f,
       gen_svg rnd0 nihao_dictionary_txt nihao nihao_strokes_db (-100) w0
       = Ret imgs w'
       /\ head (placements (200 / -100) (-100) fnames)
          = Some (IMAGE_TPL 0 (-100) (-100) (-100) f).
Proof.
  split; [lia|].
  destruct (gen_svg rnd0 nihao_dictionary_txt nihao nihao_strokes_db
              (-100) w0) as [imgs w'|e w'] eqn:Hg; [|returned Hg].
  destruct (gen_svg_negative_size rnd0 nihao_dictionary_txt nihao
              nihao_strokes_db (-100) w0 imgs w' ltac:(lia) Hg)
    as (P & fnames & f & _ & _ & _ & Hhd).
  exists imgs, w', fnames, f. split; [reflexivity | exact Hhd].
Defined.


Lemma gen_default_request_witness :
  load_strokes_db nihao_graphics_txt = inr nihao_strokes_db
  /\ load_dictionary nihao_dictionary_txt = inr nihao_P
  /\ 13 <> 0
  /\ exists imgs w',
       gen_svg rnd0 nihao_dictionary_txt (str_chars (gen_chars (Some [])))
         nihao_strokes_db 13 w0 = Ret imgs w'
       /\ forall f, f ∈ imgs -> f = py "X0-99-99.svg".
Proof.
  split; [reflexivity|]. split; [reflexivity|]. split; [lia|].
  apply (gen_default_request rnd0 nihao_graphics_txt nihao_dictionary_txt
           nihao_strokes_db nihao_P 13 w0 (Some [])
           eq_refl eq_refl ltac:(lia) (or_intror eq_refl)).
Defined.

Lemma main_unlinks_witness :
  exists fnames,
    mr_actions (main rnd0 (py "/srv") (fun _ => None) nihao_graphics_txt
                  nihao_dictionary_txt (py "你好") 100 false false w0)
    = [OPEN_W (py "你好.svg");
       GEN_PDF (py "/srv/你好.svg") (py "/srv/你好.pdf");
       UNLINK_EACH fnames; UNLINK (py "你好.svg")].
Proof.
  destruct (main_unlinks rnd0 (py "/srv") (fun _ => None) nihao_graphics_txt
              nihao_dictionary_txt (py "你好") 100 false false w0)
    as (_ & _ & Hall).
  apply Hall; reflexivity.
Defined.

(** With [no_pdf] nothing is removed, and the four cells of the page
    stay in two files. *)
Example main_no_pdf_keeps_files :
  main rnd0 (py "/srv") (fun _ => None) nihao_graphics_txt
    nihao_dictionary_txt (py "你好") 100 false true w0
  = MainResult (inr tt)
      (World [py "你0-0-1.svg"; py "你0-1-99.svg"]
         [(py "你0-0-1.svg", CellFile (py "nǐ") [(py "M 1 1", 20)]);
          (py "你0-1-99.svg", CellFile (py "nǐ") [(py "M 2 2", 10)])]
         0
         [HEADER_SINGLE; TEXT (py "你 (nǐ), 好 (hǎo)");
          IMAGE_TPL 0 100 100 100 (py "你0-0-1.svg");
          IMAGE_TPL 100 100 100 100 (py "你0-0-1.svg");
          IMAGE_TPL 0 200 100 100 (py "你0-0-1.svg");
          IMAGE_TPL 100 200 100 100 (py "你0-1-99.svg");
          FOOTER_SINGLE])
      [OPEN_W (py "你好.svg")].
Proof. vm_compute. reflexivity. Qed.

Lemma gen_targets_not_empty_witness :
  load_dictionary nihao_dictionary_txt = inr nihao_P
  /\ str_chars (gen_chars (Some (py "你好"))) = nihao
  /\ gen_svg rnd0 nihao_dictionary_txt (str_chars (gen_chars (Some (py "你好"))))
       nihao_strokes_db 0 w0 <> Raise IndexError w0.
Proof.
  split; [reflexivity|]. split; [reflexivity|].
  apply (gen_targets_not_empty rnd0 nihao_dictionary_txt nihao_P
           nihao_strokes_db 0 w0 (Some (py "你好")) eq_refl).
Defined.
